(** * go-tarantool: the connection engine of [connection.go]

    A shallow embedding of the connection's request-ID allocator, the
    pending-request registry, the router/worker pipeline, the framing
    functions and the handshake of [Connect], with the properties the
    specification states about them. *)

From Stdlib Require Import ZArith Lia List Ascii String Strings.Byte.
From stdpp Require Import base option list gmap strings.

Local Open Scope Z_scope.

(** ** Machine integers *)

(** [math.MaxUint32]. *)
Definition MaxUint32 : Z := 4294967295.

(** Arithmetic on [uint32] wraps modulo [2^32]. *)
Definition wrap32 (z : Z) : Z := z mod 2 ^ 32.

(** Go's [int] on a 64-bit platform: two's complement wrap-around. *)
Definition wrap_int (z : Z) : Z := (z + 2 ^ 63) mod 2 ^ 64 - 2 ^ 63.

(** The conversion [byte(x)] keeps the low eight bits. *)
Definition byte_of_Z (z : Z) : byte :=
  match Byte.of_N (Z.to_N (z mod 256)) with
  | Some b => b
  | None => x00
  end.

(** The conversion [int(b)] of a byte. *)
Definition Z_of_byte (b : byte) : Z := Z.of_N (Byte.to_N b).

(** ** Errors and responses *)

(** Modelled from the spec: the error constructors [NewConnectionError],
    [ConnectionClosedError] and the [QueryError] wrapper are declared
    outside [connection.go]; the spec calls them the connection error, the
    connection-closed error and the query error.  The remaining
    constructors are the values built in [connection.go] itself
    ([errors.New], [fmt.Errorf]) and the errors of the [io] and [net]
    packages. *)
Inductive error : Type :=
| ErrorsNew (msg : string)
| FmtErrorf (msg : string)
| NewConnectionError (msg : string)
| ConnectionClosedError
| QueryError (e : error)
| IoEOF
| IoErrUnexpectedEOF
| NetError (code : nat)
| PackError (code : nat)
| DecodeError (code : nat)
| ServerError (code : nat).

(** Modelled from the spec: the [Response] struct is declared outside
    [connection.go]; the code uses its [requestID] and [Error] fields, the
    decoded result payload is kept opaque. *)
Record Response : Type := mkResponse {
  resp_requestID : Z;
  resp_Error : option error;
  resp_Data : list byte
}.

(** The literal [&Response{Error: e}]: every other field is zero. *)
Definition ResponseError (e : error) : Response :=
  {| resp_requestID := 0; resp_Error := Some e; resp_Data := [] |}.

(** ** Reply channels

    A reply channel is a Go channel of [*Response].  Channels are shared
    objects: a request holds a reference to its channel, so the channels
    live in a store addressed by reference.  The store records, for each
    channel, the values sent on it in order and whether it was closed. *)
Record chan : Type := mkChan {
  ch_sent : list Response;
  ch_closed : bool
}.

Definition newChan : chan := {| ch_sent := []; ch_closed := false |}.

(** [ch <- v]: sending on a closed channel panics; sending on a channel
    that does not exist (a nil channel) never completes.  Both are [None]. *)
Definition chan_send (c : nat) (v : Response) (h : gmap nat chan)
  : option (gmap nat chan) :=
  match h !! c with
  | Some ch =>
      if ch_closed ch then None
      else Some (<[c := {| ch_sent := ch_sent ch ++ [v]; ch_closed := false |}]> h)
  | None => None
  end.

(** [close(ch)]: closing a closed or a nil channel panics. *)
Definition chan_close (c : nat) (h : gmap nat chan) : option (gmap nat chan) :=
  match h !! c with
  | Some ch =>
      if ch_closed ch then None
      else Some (<[c := {| ch_sent := ch_sent ch; ch_closed := true |}]> h)
  | None => None
  end.

(** ** Requests *)

(** The query payload interface: [Pack(requestID, defaultSpace)] returns
    the wire bytes and an error. *)
Record Query : Type := mkQuery {
  Pack : Z -> string -> list byte * option error
}.

Record request : Type := mkRequest {
  query : Query;
  replyChan : nat;
  raw : list byte
}.

Definition set_raw (r : request) (b : list byte) : request :=
  {| query := query r; replyChan := replyChan r; raw := b |}.

(** ** The connection *)

Record Greeting : Type := mkGreeting {
  Version : list byte;
  Auth : list byte
}.

(** The fields of [Connection].  [requestChan] is the buffered submission
    queue (oldest first); [closeOnce] tells whether the [sync.Once] has
    fired; [exit] and [closed] count how often the channel of that name was
    closed, [tcpConn] how often the socket was closed. *)
Record Connection : Type := mkConnection {
  addr : string;
  requestID : Z;
  requests : gmap Z request;
  requestChan : list request;
  closeOnce : bool;
  exit : nat;
  closed : nat;
  tcpConn : nat;
  queryTimeout : Z;
  defaultSpace : string;
  connGreeting : option Greeting
}.

Definition set_requestID (conn : Connection) (v : Z) : Connection :=
  {| addr := addr conn; requestID := v; requests := requests conn;
     requestChan := requestChan conn; closeOnce := closeOnce conn;
     exit := exit conn; closed := closed conn; tcpConn := tcpConn conn;
     queryTimeout := queryTimeout conn; defaultSpace := defaultSpace conn;
     connGreeting := connGreeting conn |}.

Definition set_requests (conn : Connection) (v : gmap Z request) : Connection :=
  {| addr := addr conn; requestID := requestID conn; requests := v;
     requestChan := requestChan conn; closeOnce := closeOnce conn;
     exit := exit conn; closed := closed conn; tcpConn := tcpConn conn;
     queryTimeout := queryTimeout conn; defaultSpace := defaultSpace conn;
     connGreeting := connGreeting conn |}.

Definition set_requestChan (conn : Connection) (v : list request) : Connection :=
  {| addr := addr conn; requestID := requestID conn; requests := requests conn;
     requestChan := v; closeOnce := closeOnce conn;
     exit := exit conn; closed := closed conn; tcpConn := tcpConn conn;
     queryTimeout := queryTimeout conn; defaultSpace := defaultSpace conn;
     connGreeting := connGreeting conn |}.

(** The struct literal of [Connect]: every field not listed is zero. *)
Definition emptyConnection (a : string) : Connection :=
  {| addr := a; requestID := 0; requests := ∅; requestChan := [];
     closeOnce := false; exit := 0%nat; closed := 0%nat; tcpConn := 0%nat;
     queryTimeout := 0; defaultSpace := ""; connGreeting := None |}.

(** ** [nextID] *)

Definition nextID (conn : Connection) : Z * Connection :=
  let conn1 :=
    if requestID conn =? MaxUint32 then set_requestID conn 0 else conn in
  let conn2 := set_requestID conn1 (wrap32 (requestID conn1 + 1)) in
  (requestID conn2, conn2).

(** [n] consecutive calls of [nextID]: the IDs returned, in call order, and
    the connection afterwards. *)
Fixpoint nextIDs (n : nat) (conn : Connection) : list Z * Connection :=
  match n with
  | O => ([], conn)
  | S n' =>
      let '(id, conn1) := nextID conn in
      let '(ids, conn2) := nextIDs n' conn1 in
      (id :: ids, conn2)
  end.

(** ** The pending-request registry: [newRequest] and [handleReply]

    Both functions mutate the connection and send on reply channels, so
    they thread the connection and the channel store; [None] is a run
    that does not complete (a panic of [chan_send] or [chan_close]). *)

(** [newRequest] returns its error, the request as the caller's pointer
    sees it afterwards ([r.raw] is assigned in place), the connection and
    the channel store. *)
Definition newRequest (r : request) (conn : Connection) (h : gmap nat chan)
  : option (option error * request * Connection * gmap nat chan) :=
  let '(id, conn1) := nextID conn in
  '(conn2, h2) ←
    match requests conn1 !! id with
    | Some old =>
        h1 ← chan_send (replyChan old)
               (ResponseError (NewConnectionError "Shred old requests")) h;
        h2 ← chan_close (replyChan old) h1;
        Some (set_requests conn1 (delete id (requests conn1)), h2)
    | None => Some (conn1, h)
    end;
  let '(bytes, err) := Pack (query r) id (defaultSpace conn2) in
  let r' := set_raw r bytes in
  match err with
  | Some e =>
      h3 ← chan_send (replyChan r') (ResponseError (QueryError e)) h2;
      Some (Some e, r', conn2, h3)
  | None =>
      Some (None, r', set_requests conn2 (<[id := r']> (requests conn2)), h2)
  end.

Definition handleReply (res : Response) (conn : Connection) (h : gmap nat chan)
  : option (Connection * gmap nat chan) :=
  match requests conn !! resp_requestID res with
  | Some req =>
      h1 ← chan_send (replyChan req) res h;
      h2 ← chan_close (replyChan req) h1;
      Some (set_requests conn (delete (resp_requestID res) (requests conn)), h2)
  | None => Some (conn, h)
  end.

(** The channel [c] holds exactly the values [vs] and is open. *)
Definition chan_open (h : gmap nat chan) (c : nat) (vs : list Response) : Prop :=
  h !! c = Some {| ch_sent := vs; ch_closed := false |}.

(** The channel [c] holds exactly the values [vs] and was closed. *)
Definition chan_done (h : gmap nat chan) (c : nat) (vs : list Response) : Prop :=
  h !! c = Some {| ch_sent := vs; ch_closed := true |}.

(** The connection and the channels after the eviction block of
    [newRequest], when the ID [id] was allocated on [conn1]. *)
Definition after_eviction (id : Z) (conn1 : Connection) (h : gmap nat chan)
  : option (Connection * gmap nat chan) :=
  match requests conn1 !! id with
  | Some old =>
      h1 ← chan_send (replyChan old)
             (ResponseError (NewConnectionError "Shred old requests")) h;
      h2 ← chan_close (replyChan old) h1;
      Some (set_requests conn1 (delete id (requests conn1)), h2)
  | None => Some (conn1, h)
  end.

(** ** [stop] and the tail of [worker] *)

(** [closeOnce.Do] runs its body on the first call only; the body closes
    [exit] and the socket. *)
Definition stop (conn : Connection) : Connection :=
  if closeOnce conn then conn
  else
    {| addr := addr conn; requestID := requestID conn;
       requests := requests conn; requestChan := requestChan conn;
       closeOnce := true;
       exit := S (exit conn); closed := closed conn;
       tcpConn := S (tcpConn conn);
       queryTimeout := queryTimeout conn; defaultSpace := defaultSpace conn;
       connGreeting := connGreeting conn |}.

(** The body shared by both clean-up loops of [worker]: send the
    connection-closed response, then close the channel. *)
Definition fail_request (req : request) (h : gmap nat chan)
  : option (gmap nat chan) :=
  h1 ← chan_send (replyChan req) (ResponseError ConnectionClosedError) h;
  chan_close (replyChan req) h1.

(** [for requestID, req := range conn.requests]: Go visits the entries in
    an unspecified order, so the order is an argument. *)
Fixpoint fail_pending (entries : list (Z * request)) (conn : Connection)
    (h : gmap nat chan) : option (Connection * gmap nat chan) :=
  match entries with
  | [] => Some (conn, h)
  | (id, req) :: rest =>
      h1 ← fail_request req h;
      fail_pending rest (set_requests conn (delete id (requests conn))) h1
  end.

(** The [FETCH_INPUT] loop: receive from [requestChan] until it is empty. *)
Fixpoint fetch_input (queue : list request) (h : gmap nat chan)
  : option (gmap nat chan) :=
  match queue with
  | [] => Some h
  | req :: rest => h1 ← fail_request req h; fetch_input rest h1
  end.

(** [worker] after [wg.Wait()] has returned. *)
Definition worker_teardown (entries : list (Z * request)) (conn : Connection)
    (h : gmap nat chan) : option (Connection * gmap nat chan) :=
  '(conn1, h1) ← fail_pending entries conn h;
  h2 ← fetch_input (requestChan conn1) h1;
  Some ({| addr := addr conn1; requestID := requestID conn1;
           requests := requests conn1; requestChan := [];
           closeOnce := closeOnce conn1;
           exit := exit conn1; closed := S (closed conn1);
           tcpConn := tcpConn conn1;
           queryTimeout := queryTimeout conn1;
           defaultSpace := defaultSpace conn1;
           connGreeting := connGreeting conn1 |}, h2).

(** ** One iteration of the [router] loop *)

(** [cap(readChan)] and [cap(writeChan)] as [worker] makes them. *)
Definition readChanCap : Z := 256.
Definition writeChanCap : Z := 256.

(** The stages' view of the pipeline: the connection, the reply channels
    and the two queues between the stages (oldest element first). *)
Record pipeline : Type := mkPipeline {
  p_conn : Connection;
  p_chans : gmap nat chan;
  readChan : list Response;
  writeChan : list request
}.

(** Which case a [select] takes.  A case can be taken only when it is
    ready; the scheduler picks among the ready ones.  A receive reports
    [!ok] only on a channel that was closed and is drained.  Nothing in
    [connection.go] closes [requestChan] or [readChan], so whether one of
    them is closed is not part of the state: the two [Closed] cases stand
    for a close by code outside this file and can be taken whenever the
    queue is empty. *)
Inductive select_case : Type :=
| CaseRequest           (* r, ok := <-requestChan, with a value *)
| CaseStop              (* <-stopChan *)
| CaseResponse          (* res, ok := <-readChan, with a value *)
| CaseRequestClosed     (* r, ok := <-requestChan, with !ok *)
| CaseResponseClosed.   (* res, ok := <-readChan, with !ok *)
Inductive write_case : Type := CaseWrite | CaseWriteStop.

Inductive router_outcome : Type :=
| Continue (p : pipeline)
| Break (p : pipeline)
| RouterPanic
| NotReady.

(** [readChanThreshold := cap(readChan) / 10]. *)
Definition readChanThreshold : Z := readChanCap / 10.

(** The local variable [requestChan] after the test at the top of the
    loop: [None] is the nil channel, which no [select] case can receive
    from. *)
Definition router_requestChan (p : pipeline) : option (list request) :=
  if Z.of_nat (length (readChan p)) >? readChanThreshold then None
  else Some (requestChan (p_conn p)).

Definition router_iter (c : select_case) (w : write_case) (p : pipeline)
  : router_outcome :=
  match c with
  | CaseRequest =>
      match router_requestChan p with
      | Some (r :: queue) =>
          match newRequest r (set_requestChan (p_conn p) queue) (p_chans p) with
          | None => RouterPanic
          | Some (Some _, _, conn', h') =>
              Continue {| p_conn := conn'; p_chans := h';
                          readChan := readChan p; writeChan := writeChan p |}
          | Some (None, r', conn', h') =>
              match w with
              | CaseWrite =>
                  if Z.of_nat (length (writeChan p)) <? writeChanCap then
                    Continue {| p_conn := conn'; p_chans := h';
                                readChan := readChan p;
                                writeChan := writeChan p ++ [r'] |}
                  else NotReady
              | CaseWriteStop =>
                  if (0 <? exit conn')%nat then
                    Break {| p_conn := conn'; p_chans := h';
                             readChan := readChan p; writeChan := writeChan p |}
                  else NotReady
              end
          end
      | _ => NotReady
      end
  | CaseStop => if (0 <? exit (p_conn p))%nat then Break p else NotReady
  | CaseResponse =>
      match readChan p with
      | res :: queue =>
          match handleReply res (p_conn p) (p_chans p) with
          | None => RouterPanic
          | Some (conn', h') =>
              Continue {| p_conn := conn'; p_chans := h';
                          readChan := queue; writeChan := writeChan p |}
          end
      | [] => NotReady
      end
  | CaseRequestClosed =>
      match router_requestChan p with
      | Some [] => Break p
      | _ => NotReady
      end
  | CaseResponseClosed =>
      match readChan p with
      | [] => Break p
      | _ => NotReady
      end
  end.

(** ** The goroutines of a connection as a transition system

    [worker] starts three stage goroutines, each running
    [stage(); conn.stop(); wg.Done()], waits for them and then cleans up;
    [Close] runs [conn.stop()] and then blocks on [<-conn.closed].  A
    state holds the pipeline and the program point of every goroutine;
    a step is one statement of one goroutine.  [sync.Once.Do] is atomic.
    The stage functions are taken by what they do to the shared state:
    the router runs iterations of its loop, the writer takes requests off
    [writeChan], and a send on [readChan] may add any response (more than
    the reader of [connection.go] ever sends); writer and reader may
    return at any time.  Modelled from the spec: the submission of a
    request is declared outside [connection.go]; a caller puts the
    request on the bounded submission queue. *)

Inductive stage_state : Type :=
| StageRunning      (* inside router / writer / reader *)
| StageReturned     (* the stage function returned, before conn.stop() *)
| StageStopped      (* after conn.stop(), before wg.Done() *)
| StageDone.        (* after wg.Done() *)

Inductive caller_state : Type :=
| CloseNotCalled
| CloseWaiting      (* after conn.stop(), blocked on <-conn.closed *)
| CloseReturned.

Inductive worker_state : Type :=
| WorkerWaiting     (* in wg.Wait() *)
| WorkerFinished.   (* after close(conn.closed) *)

Record system : Type := mkSystem {
  sys_pipe : pipeline;
  sys_router : stage_state;
  sys_writer : stage_state;
  sys_reader : stage_state;
  sys_wg : nat;
  sys_worker : worker_state;
  sys_callers : list caller_state
}.

Definition pipe_set_conn (p : pipeline) (conn : Connection) : pipeline :=
  {| p_conn := conn; p_chans := p_chans p;
     readChan := readChan p; writeChan := writeChan p |}.

Definition sys_set_pipe (s : system) (p : pipeline) : system :=
  {| sys_pipe := p; sys_router := sys_router s; sys_writer := sys_writer s;
     sys_reader := sys_reader s; sys_wg := sys_wg s;
     sys_worker := sys_worker s; sys_callers := sys_callers s |}.

(** The three stage goroutines, to tell them apart in a step. *)
Inductive stage : Type := Router | Writer | Reader.

Definition stage_of (g : stage) (s : system) : stage_state :=
  match g with
  | Router => sys_router s
  | Writer => sys_writer s
  | Reader => sys_reader s
  end.

Definition set_stage (g : stage) (st : stage_state) (s : system) : system :=
  {| sys_pipe := sys_pipe s;
     sys_router := match g with Router => st | _ => sys_router s end;
     sys_writer := match g with Writer => st | _ => sys_writer s end;
     sys_reader := match g with Reader => st | _ => sys_reader s end;
     sys_wg := sys_wg s; sys_worker := sys_worker s;
     sys_callers := sys_callers s |}.

(** The capacity of [requestChan] as [Connect] makes it. *)
Definition requestChanCap : Z := 16.

Inductive sys_step : system -> system -> Prop :=
(* the router runs one iteration of its loop and stays in it *)
| step_router_continue s c w p' :
    sys_router s = StageRunning ->
    router_iter c w (sys_pipe s) = Continue p' ->
    sys_step s (sys_set_pipe s p')
(* the router leaves its loop *)
| step_router_break s c w p' :
    sys_router s = StageRunning ->
    router_iter c w (sys_pipe s) = Break p' ->
    sys_step s (set_stage Router StageReturned (sys_set_pipe s p'))
(* the writer takes a request off writeChan and writes it to the socket *)
| step_writer_write s r queue :
    sys_writer s = StageRunning ->
    writeChan (sys_pipe s) = r :: queue ->
    sys_step s
      (sys_set_pipe s
         {| p_conn := p_conn (sys_pipe s); p_chans := p_chans (sys_pipe s);
            readChan := readChan (sys_pipe s); writeChan := queue |})
(* a response is sent on readChan *)
| step_reader_send s res :
    sys_reader s = StageRunning ->
    Z.of_nat (length (readChan (sys_pipe s))) < readChanCap ->
    sys_step s
      (sys_set_pipe s
         {| p_conn := p_conn (sys_pipe s); p_chans := p_chans (sys_pipe s);
            readChan := readChan (sys_pipe s) ++ [res];
            writeChan := writeChan (sys_pipe s) |})
(* writer and reader return on an I/O error or on the stop signal *)
| step_writer_return s :
    sys_writer s = StageRunning ->
    sys_step s (set_stage Writer StageReturned s)
| step_reader_return s :
    sys_reader s = StageRunning ->
    sys_step s (set_stage Reader StageReturned s)
(* conn.stop() of a stage goroutine *)
| step_stage_stop s g :
    stage_of g s = StageReturned ->
    sys_step s
      (set_stage g StageStopped
         (sys_set_pipe s (pipe_set_conn (sys_pipe s) (stop (p_conn (sys_pipe s))))))
(* wg.Done() of a stage goroutine *)
| step_stage_done s g :
    stage_of g s = StageStopped ->
    sys_step s
      {| sys_pipe := sys_pipe (set_stage g StageDone s);
         sys_router := sys_router (set_stage g StageDone s);
         sys_writer := sys_writer (set_stage g StageDone s);
         sys_reader := sys_reader (set_stage g StageDone s);
         sys_wg := pred (sys_wg s);
         sys_worker := sys_worker s; sys_callers := sys_callers s |}
(* a caller puts a request on the submission queue *)
| step_submit s r :
    Z.of_nat (length (requestChan (p_conn (sys_pipe s)))) < requestChanCap ->
    sys_step s
      (sys_set_pipe s
         (pipe_set_conn (sys_pipe s)
            (set_requestChan (p_conn (sys_pipe s))
               (requestChan (p_conn (sys_pipe s)) ++ [r]))))
(* a caller enters Close and runs conn.stop() *)
| step_close_stop s i :
    sys_callers s !! i = Some CloseNotCalled ->
    sys_step s
      {| sys_pipe := pipe_set_conn (sys_pipe s) (stop (p_conn (sys_pipe s)));
         sys_router := sys_router s; sys_writer := sys_writer s;
         sys_reader := sys_reader s; sys_wg := sys_wg s;
         sys_worker := sys_worker s;
         sys_callers := <[i := CloseWaiting]> (sys_callers s) |}
(* <-conn.closed completes once the channel is closed: Close returns *)
| step_close_return s i :
    sys_callers s !! i = Some CloseWaiting ->
    (0 < closed (p_conn (sys_pipe s)))%nat ->
    sys_step s
      {| sys_pipe := sys_pipe s;
         sys_router := sys_router s; sys_writer := sys_writer s;
         sys_reader := sys_reader s; sys_wg := sys_wg s;
         sys_worker := sys_worker s;
         sys_callers := <[i := CloseReturned]> (sys_callers s) |}
(* wg.Wait() returns; the worker fails what is pending and closes [closed] *)
| step_worker_teardown s entries conn' h' :
    sys_worker s = WorkerWaiting ->
    sys_wg s = 0%nat ->
    entries ≡ₚ map_to_list (requests (p_conn (sys_pipe s))) ->
    worker_teardown entries (p_conn (sys_pipe s)) (p_chans (sys_pipe s))
      = Some (conn', h') ->
    sys_step s
      {| sys_pipe := {| p_conn := conn'; p_chans := h';
                        readChan := readChan (sys_pipe s);
                        writeChan := writeChan (sys_pipe s) |};
         sys_router := sys_router s; sys_writer := sys_writer s;
         sys_reader := sys_reader s; sys_wg := sys_wg s;
         sys_worker := WorkerFinished;
         sys_callers := sys_callers s |}.

(** The state in which [Connect] leaves a connection when it starts
    [worker], with [n] callers that have not called [Close] yet. *)
Definition init_system (conn : Connection) (h : gmap nat chan) (n : nat)
  : system :=
  {| sys_pipe := {| p_conn := conn; p_chans := h;
                    readChan := []; writeChan := [] |};
     sys_router := StageRunning; sys_writer := StageRunning;
     sys_reader := StageRunning; sys_wg := 3%nat;
     sys_worker := WorkerWaiting;
     sys_callers := replicate n CloseNotCalled |}.

(** A connection on which nothing was closed yet. *)
Definition open_connection (conn : Connection) : Prop :=
  closeOnce conn = false /\ exit conn = 0%nat /\ closed conn = 0%nat
  /\ tcpConn conn = 0%nat.

(** ** Reading from the socket *)

Inductive result (A : Type) : Type :=
| Ok (a : A)
| Err (e : error)
| Panic.
Arguments Ok {A} a.
Arguments Err {A} e.
Arguments Panic {A}.

(** [io.ReadAtLeast(r, buf, n)] with [len(buf) = n] (and [io.ReadFull] on a
    buffer of [n] bytes), on a stream that holds the bytes of [r] and then
    ends: the bytes read and the rest of the stream. *)
Definition ReadAtLeast (r : list byte) (n : nat) : result (list byte * list byte) :=
  if (n =? 0)%nat then Ok ([], r)
  else if (length r =? 0)%nat then Err IoEOF
  else if (length r <? n)%nat then Err IoErrUnexpectedEOF
  else Ok (take n r, drop n r).

(** Modelled from the spec: the constant [PacketLengthBytes] is declared
    outside [connection.go]; the frame starts with a 5-byte length prefix
    (the marker and a 4-byte length). *)
Definition PacketLengthBytes : nat := 5.

Definition byte_at (l : list byte) (i : nat) : byte := nth i l x00.

(** The expression that [readMessage] assigns to [bodyLength]: the four
    bytes after the marker, most significant first, in [int] arithmetic. *)
Definition headerBodyLength (header : list byte) : Z :=
  wrap_int (wrap_int (wrap_int
    (wrap_int (Z.shiftl (Z_of_byte (byte_at header 1)) 24)
     + wrap_int (Z.shiftl (Z_of_byte (byte_at header 2)) 16))
     + wrap_int (Z.shiftl (Z_of_byte (byte_at header 3)) 8))
     + Z_of_byte (byte_at header 4)).

(** [readMessage] returns the body and leaves the rest of the stream;
    [make([]byte, bodyLength)] panics on a negative length. *)
Definition readMessage (r : list byte) : result (list byte) * list byte :=
  match ReadAtLeast r PacketLengthBytes with
  | Err e => (Err e, r)
  | Panic => (Panic, r)
  | Ok (header, r1) =>
      if negb (Z_of_byte (byte_at header 0) =? 206) then
        (Err (ErrorsNew "Wrong reponse header"), r1)
      else
        let bodyLength := headerBodyLength header in
        if bodyLength =? 0 then
          (Err (ErrorsNew "Response should not be 0 length"), r1)
        else if bodyLength <? 0 then (Panic, r1)
        else
          match ReadAtLeast r1 (Z.to_nat bodyLength) with
          | Ok (body, r2) => (Ok body, r2)
          | Err e => (Err e, r1)
          | Panic => (Panic, r1)
          end
  end.

(** ** [reader] *)

Inductive reader_outcome : Type :=
| ReaderStopped (readChan : list Response)   (* the loop was left *)
| ReaderPanicked (readChan : list Response)  (* nil pointer dereference *)
| ReaderOutOfFuel.

(** The loop of [reader], with the values its variables hold: [bodyLen]
    and [requestID] are never assigned and stay zero, [response] is
    assigned [nil] in every iteration.  [readChan] is the queue as the
    reader leaves it. *)
Fixpoint reader_loop (fuel : nat) (bodyLen requestID : Z) (tcp : list byte)
    (readChan : list Response) : reader_outcome :=
  match fuel with
  | O => ReaderOutOfFuel
  | S fuel' =>
      match ReadAtLeast tcp 12 with
      | Ok (header, tcp1) =>
          match ReadAtLeast tcp1 (Z.to_nat bodyLen) with
          | Ok (body, tcp2) =>
              let response : option Response := None in
              match response with
              | None => ReaderPanicked readChan
              | Some resp =>
                  reader_loop fuel' bodyLen requestID tcp2
                    (readChan ++ [{| resp_requestID := requestID;
                                     resp_Error := resp_Error resp;
                                     resp_Data := resp_Data resp |}])
              end
          | _ => ReaderStopped readChan
          end
      | _ => ReaderStopped readChan
      end
  end.

Definition reader (fuel : nat) (tcp : list byte) (readChan : list Response)
  : reader_outcome :=
  reader_loop fuel 0 0 tcp readChan.

(** ** [packIproto] *)

Section Framing.

(** The protocol keys [KeyCode] and [KeySync] are constants declared
    outside [connection.go]. *)
Variables KeyCode KeySync : byte.

Definition packIproto (requestCode : byte) (requestID : Z) (body : list byte)
  : list byte :=
  let h := [xce; x00; x00; x00; x00;
            x82;
            KeyCode; requestCode;
            KeySync; xce;
            byte_of_Z (Z.shiftr requestID 24); byte_of_Z (Z.shiftr requestID 16);
            byte_of_Z (Z.shiftr requestID 8); byte_of_Z requestID] in
  let l := wrap32 (wrap_int (wrap_int (Z.of_nat (length h) - 5)
                             + Z.of_nat (length body))) in
  let h := <[1%nat := byte_of_Z (Z.shiftr l 24)]> h in
  let h := <[2%nat := byte_of_Z (Z.shiftr l 16)]> h in
  let h := <[3%nat := byte_of_Z (Z.shiftr l 8)]> h in
  let h := <[4%nat := byte_of_Z l]> h in
  h ++ body.

End Framing.

(** ** [Connect] *)

Record Options : Type := mkOptions {
  ConnectTimeout : Z;   (* time.Duration, in nanoseconds *)
  QueryTimeout : Z;
  DefaultSpace : string;
  User : string;
  Password : string
}.

(** [&Options{}]. *)
Definition zeroOptions : Options :=
  {| ConnectTimeout := 0; QueryTimeout := 0; DefaultSpace := "";
     User := ""; Password := "" |}.

(** [time.Second], in nanoseconds. *)
Definition Second : Z := 1000000000.

(** [strings.Split(s, sep)] for a separator of one character. *)
Fixpoint Split (s : string) (sep : ascii) : list string :=
  match s with
  | EmptyString => [EmptyString]
  | String c rest =>
      if Ascii.eqb c sep then EmptyString :: Split rest sep
      else
        match Split rest sep with
        | first :: others => String c first :: others
        | [] => [String c EmptyString]
        end
  end.

(** The network as [Connect] meets it: the outcome of [net.DialTimeout]
    for a remote address, the bytes the server sends before the stream
    ends, and the outcome of [tcpConn.Write] for the bytes written. *)
Record Net : Type := mkNet {
  dial : string -> Z -> option error;
  inbound : list byte;
  write : list byte -> option error
}.

(** What a call of [Connect] leaves behind: its two results, the
    [Options] struct its [options] pointer refers to when it returns, the
    bytes written to the socket, whether the socket was closed and whether
    [worker] was started. *)
Record Connected : Type := mkConnected {
  c_conn : option Connection;
  c_err : option error;
  c_options : Options;
  c_written : list (list byte);
  c_socket_closed : bool;
  c_worker_started : bool
}.

Definition set_DefaultSpace (o : Options) (v : string) : Options :=
  {| ConnectTimeout := ConnectTimeout o; QueryTimeout := QueryTimeout o;
     DefaultSpace := v; User := User o; Password := Password o |}.

Definition set_ConnectTimeout (o : Options) (v : Z) : Options :=
  {| ConnectTimeout := v; QueryTimeout := QueryTimeout o;
     DefaultSpace := DefaultSpace o; User := User o; Password := Password o |}.

Definition set_QueryTimeout (o : Options) (v : Z) : Options :=
  {| ConnectTimeout := ConnectTimeout o; QueryTimeout := v;
     DefaultSpace := DefaultSpace o; User := User o; Password := Password o |}.

Definition set_options (conn : Connection) (qt : Z) (space : string)
  : Connection :=
  {| addr := addr conn; requestID := requestID conn; requests := requests conn;
     requestChan := requestChan conn; closeOnce := closeOnce conn;
     exit := exit conn; closed := closed conn; tcpConn := tcpConn conn;
     queryTimeout := qt; defaultSpace := space;
     connGreeting := connGreeting conn |}.

Definition set_Greeting (conn : Connection) (g : Greeting) : Connection :=
  {| addr := addr conn; requestID := requestID conn; requests := requests conn;
     requestChan := requestChan conn; closeOnce := closeOnce conn;
     exit := exit conn; closed := closed conn; tcpConn := tcpConn conn;
     queryTimeout := queryTimeout conn; defaultSpace := defaultSpace conn;
     connGreeting := Some g |}.

Section Handshake.

(** [(&Auth{User, Password, GreetingAuth}).Pack(requestID, space)] and
    [decodeResponse] are declared outside [connection.go]. *)
Variable AuthPack :
  string -> string -> list byte -> Z -> string -> list byte * option error.
Variable decodeResponse : list byte -> result Response.

(** A return with [err] set after the socket was opened: the deferred
    function closes the socket and clears [conn]. *)
Definition fail_connected (e : error) (options : Options)
    (written : list (list byte)) : Connected :=
  {| c_conn := None; c_err := Some e; c_options := options;
     c_written := written; c_socket_closed := true;
     c_worker_started := false |}.

(** The authentication exchange of [Connect], entered when
    [options.User] is not empty. *)
Definition authenticate (conn : Connection) (options : Options) (net : Net)
    (greetingAuth : list byte) (tcp : list byte)
  : option (Connection * list (list byte) * option error) :=
  let '(authRequestID, conn) := nextID conn in
  let '(authRaw, err) :=
    AuthPack (User options) (Password options) greetingAuth authRequestID "" in
  let err := write net authRaw in
  match err with
  | Some e => Some (conn, [authRaw], Some e)
  | None =>
      match readMessage tcp with
      | (Err e, _) => Some (conn, [authRaw], Some e)
      | (Panic, _) => None
      | (Ok authReplyBody, _) =>
          match decodeResponse authReplyBody with
          | Err e => Some (conn, [authRaw], Some e)
          | Panic => None
          | Ok authResponse =>
              if negb (resp_requestID authResponse =? authRequestID) then
                Some (conn, [authRaw], Some (ErrorsNew "Bad auth responseID"))
              else Some (conn, [authRaw], resp_Error authResponse)
          end
      end
  end.

(** [Connect(addr, options)]; a nil [options] is [None], a panic inside
    the call is [None]. *)
Definition Connect (addr : string) (options : option Options) (net : Net)
  : option Connected :=
  let conn := emptyConnection addr in
  let options := match options with Some o => o | None => zeroOptions end in
  let opts := options in
  let opts :=
    if ConnectTimeout opts =? 0 then set_ConnectTimeout opts Second else opts in
  let opts :=
    if QueryTimeout opts =? 0 then set_QueryTimeout opts Second else opts in
  let splittedAddr := Split addr "/" in
  let remoteAddr := nth 0 splittedAddr EmptyString in
  let space : error + Options :=
    if String.eqb (DefaultSpace opts) "" then
      if (1 <? length splittedAddr)%nat then
        if String.eqb (nth 1 splittedAddr EmptyString) "" then
          inl (FmtErrorf "Wrong space: ")
        else inr (set_DefaultSpace options (nth 1 splittedAddr EmptyString))
      else inr options
    else inr options in
  match space with
  | inl e =>
      Some {| c_conn := None; c_err := Some e; c_options := options;
              c_written := []; c_socket_closed := false;
              c_worker_started := false |}
  | inr options =>
      let conn := set_options conn (QueryTimeout opts) (DefaultSpace opts) in
      match dial net remoteAddr (ConnectTimeout opts) with
      | Some e =>
          Some {| c_conn := None; c_err := Some e; c_options := options;
                  c_written := []; c_socket_closed := false;
                  c_worker_started := false |}
      | None =>
          match ReadAtLeast (inbound net) 128 with
          | Err e => Some (fail_connected e options [])
          | Panic => None
          | Ok (greeting, tcp) =>
              let conn :=
                set_Greeting conn
                  {| Version := take 64 greeting;
                     Auth := drop 64 (take 108 greeting) |} in
              '(conn, written, err) ←
                (if negb (String.eqb (User options) "") then
                   authenticate conn options net
                     (drop 64 (take 108 greeting)) tcp
                 else Some (conn, [], None));
              match err with
              | Some e => Some (fail_connected e options written)
              | None =>
                  Some {| c_conn := Some conn; c_err := None;
                          c_options := options; c_written := written;
                          c_socket_closed := false;
                          c_worker_started := true |}
              end
          end
      end
  end.

End Handshake.

(** A packer that returns the bytes of [pack] and never an error. *)
Definition without_error
    (pack : string -> string -> list byte -> Z -> string
            -> list byte * option error)
  : string -> string -> list byte -> Z -> string -> list byte * option error :=
  fun user password salt id space => ((pack user password salt id space).1, None).


(** The lifecycle fields of a connection: whether the [sync.Once] has
    fired and how often [exit], [closed] and the socket were closed. *)
Definition lifecycle (conn : Connection) : bool * nat * nat * nat :=
  (closeOnce conn, exit conn, closed conn, tcpConn conn).

(** A stage goroutine that has not yet called [wg.Done()] counts one in
    the wait group. *)
Definition pending_stage (st : stage_state) : nat :=
  match st with StageDone => 0 | _ => 1 end.

(** Whether a stage goroutine has run [conn.stop()]. *)
Definition has_stopped (st : stage_state) : bool :=
  match st with StageStopped | StageDone => true | _ => false end.

(** What holds in every state the goroutines can reach. *)
Definition sys_inv (s : system) : Prop :=
  let conn := p_conn (sys_pipe s) in
  exit conn = tcpConn conn
  /\ exit conn = (if closeOnce conn then 1 else 0)%nat
  /\ sys_wg s = (pending_stage (sys_router s) + pending_stage (sys_writer s)
                + pending_stage (sys_reader s))%nat
  /\ (forall g, has_stopped (stage_of g s) = true -> closeOnce conn = true)
  /\ match sys_worker s with
     | WorkerWaiting => closed conn = 0%nat
     | WorkerFinished =>
         closed conn = 1%nat /\ sys_wg s = 0%nat /\ requests conn = ∅
     end
  /\ (forall i st, sys_callers s !! i = Some st ->
        match st with
        | CloseNotCalled => True
        | CloseWaiting => closeOnce conn = true
        | CloseReturned => closeOnce conn = true /\ closed conn = 1%nat
        end).

(** ** Concrete inputs *)

(** A query whose [Pack] fails, and one whose [Pack] returns three bytes. *)
Definition failingQuery : Query :=
  {| Pack := fun _ _ => ([], Some (PackError 1)) |}.

Definition plainQuery : Query :=
  {| Pack := fun _ _ => ([x01; x02; x03], None) |}.

(** Two reply channels, both open and empty. *)
Definition twoChans : gmap nat chan := <[1%nat := newChan]> {[0%nat := newChan]}.

(** A stale request still registered under ID 1 on a connection whose
    counter is about to hand out 1 again, and a new request. *)
Definition staleRequest : request :=
  {| query := plainQuery; replyChan := 0; raw := [x01; x02; x03] |}.

Definition staleConnection : Connection :=
  set_requests (emptyConnection "localhost:3301") {[1 := staleRequest]}.

Definition failingRequest : request :=
  {| query := failingQuery; replyChan := 1; raw := [] |}.

Definition plainRequest : request :=
  {| query := plainQuery; replyChan := 1; raw := [] |}.

(** A pipeline whose decoded-response queue holds 26 responses (one more
    than a tenth of its capacity) and whose submission queue holds one
    request. *)
Definition busyPipeline : pipeline :=
  {| p_conn := set_requestChan (emptyConnection "localhost:3301") [plainRequest];
     p_chans := twoChans;
     readChan := replicate 26 (ResponseError (ServerError 1));
     writeChan := [] |}.

(** The same pipeline with 25 responses queued. *)
Definition calmPipeline : pipeline :=
  {| p_conn := set_requestChan (emptyConnection "localhost:3301") [plainRequest];
     p_chans := twoChans;
     readChan := replicate 25 (ResponseError (ServerError 1));
     writeChan := [] |}.

(** Twelve bytes on the socket: a frame header as the reader expects it. *)
Definition twelveBytes : list byte :=
  [xce; x00; x00; x00; x07; x82; x00; x00; x01; xce; x00; x00].

(** A body of [2^32 - 9] zero bytes: with the nine bytes of the header map
    the frame content is [2^32] bytes long. *)
Definition hugeBody : list byte := replicate (Z.to_nat 4294967287) x00.

(** The value [packIproto] assigns to [l]: the header map is nine bytes
    long. *)
Definition frameLength (body : list byte) : Z :=
  wrap32 (wrap_int (wrap_int (14 - 5) + Z.of_nat (length body))).

(** The bytes [packIproto] puts after the 5-byte length prefix: the header
    map and the body. *)
Definition frameContent (KeyCode KeySync requestCode : byte) (requestID : Z)
    (body : list byte) : list byte :=
  [x82; KeyCode; requestCode; KeySync; xce;
   byte_of_Z (Z.shiftr requestID 24); byte_of_Z (Z.shiftr requestID 16);
   byte_of_Z (Z.shiftr requestID 8); byte_of_Z requestID] ++ body.

(** A server that accepts the connection and sends a greeting of 128 zero
    bytes; every write succeeds. *)
Definition greetingNet : Net :=
  {| dial := fun _ _ => None;
     inbound := replicate 128 x00;
     write := fun _ => None |}.

(** Collaborators for the examples: a packer that fails and returns no
    bytes, and a decoder that accepts nothing. *)
Definition failingAuthPack
  : string -> string -> list byte -> Z -> string -> list byte * option error :=
  fun _ _ _ _ _ => ([], Some (PackError 7)).

Definition noDecode : list byte -> result Response :=
  fun _ => Err (DecodeError 1).

(** A server that sends the greeting and then one frame with a one-byte
    body, a decoder that reads it as the reply to request 1, and options
    with credentials. *)
Definition authNet : Net :=
  {| dial := fun _ _ => None;
     inbound := replicate 128 x00 ++ [xce; x00; x00; x00; x01; x80];
     write := fun _ => None |}.

Definition acceptDecode : list byte -> result Response :=
  fun _ => Ok {| resp_requestID := 1; resp_Error := None; resp_Data := [] |}.

Definition adminOptions : Options :=
  {| ConnectTimeout := 0; QueryTimeout := 0; DefaultSpace := "";
     User := "admin"; Password := "secret" |}.

(** A connection after one complete shutdown, and the goroutines of a
    system with one caller whose [Close] has returned. *)
Definition closedConnection : Connection :=
  {| addr := "localhost:3301"; requestID := 0; requests := ∅;
     requestChan := []; closeOnce := true; exit := 1; closed := 1;
     tcpConn := 1; queryTimeout := 0; defaultSpace := "";
     connGreeting := None |}.

Definition closedSystem : system :=
  {| sys_pipe := {| p_conn := closedConnection; p_chans := ∅;
                    readChan := []; writeChan := [] |};
     sys_router := StageDone; sys_writer := StageDone;
     sys_reader := StageDone; sys_wg := 0;
     sys_worker := WorkerFinished;
     sys_callers := [CloseReturned] |}.

(** A connection whose counter has reached [MaxUint32 - 1]. *)
Definition wrappingConnection : Connection :=
  set_requestID (emptyConnection "localhost:3301") 4294967294.

(** A connection with one registered request (channel 0) and one request
    still in the submission queue (channel 1). *)
Definition pendingConnection : Connection :=
  set_requestChan staleConnection [plainRequest].

(** A connection on which the registered request was submitted a second
    time: it is in the registry and in the submission queue. *)
Definition resubmittedConnection : Connection :=
  set_requestChan staleConnection [staleRequest].

(** A reply with correlation ID 1 carrying two bytes of data. *)
Definition replyOne : Response :=
  {| resp_requestID := 1; resp_Error := None; resp_Data := [x2a; x2b] |}.

(** A pipeline with one request in the submission queue and room
    everywhere, and the same pipeline after shutdown was signalled. *)
Definition idlePipeline : pipeline :=
  {| p_conn := set_requestChan (emptyConnection "localhost:3301") [plainRequest];
     p_chans := twoChans; readChan := []; writeChan := [] |}.

Definition stoppingPipeline : pipeline :=
  {| p_conn := stop (set_requestChan (emptyConnection "localhost:3301")
                       [plainRequest]);
     p_chans := twoChans; readChan := []; writeChan := [] |}.

(** A frame header announcing four body bytes, followed by two. *)
Definition truncatedFrame : list byte :=
  [xce; x00; x00; x00; x04; x82; x00].

(** A server that accepts the connection and closes it without sending
    anything. *)
Definition silentNet : Net :=
  {| dial := fun _ _ => None; inbound := []; write := fun _ => None |}.

(** The goroutines after a complete shutdown of a connection that had one
    request in its submission queue (reply channel 1): the request was
    failed by the clean-up. *)
Definition drainedSystem : system :=
  {| sys_pipe :=
       {| p_conn := closedConnection;
          p_chans :=
            <[1%nat := {| ch_sent := [ResponseError ConnectionClosedError];
                          ch_closed := true |}]> twoChans;
          readChan := []; writeChan := [] |};
     sys_router := StageDone; sys_writer := StageDone;
     sys_reader := StageDone; sys_wg := 0;
     sys_worker := WorkerFinished;
     sys_callers := [CloseReturned] |}.
(** * Properties *)

(** ** The ID allocator *)

Lemma MaxUint32_eq : MaxUint32 = 2 ^ 32 - 1.
Proof. reflexivity. Qed.

Lemma nextID_state (conn : Connection) :
  requestID (nextID conn).2 = (nextID conn).1.
Proof. reflexivity. Qed.

Lemma nextID_value (conn : Connection) :
  0 <= requestID conn <= MaxUint32 ->
  (nextID conn).1 = requestID conn mod MaxUint32 + 1.
Proof.
  intros Hr. unfold nextID. cbn [fst].
  destruct (requestID conn =? MaxUint32) eqn:E.
  - apply Z.eqb_eq in E. rewrite E. cbn [set_requestID requestID].
    rewrite Z_mod_same_full. reflexivity.
  - apply Z.eqb_neq in E. cbn [set_requestID requestID].
    unfold wrap32. rewrite MaxUint32_eq in *.
    rewrite (Z.mod_small (requestID conn + 1)) by lia.
    rewrite Z.mod_small by lia. reflexivity.
Qed.

Lemma nextID_range (conn : Connection) :
  0 <= requestID conn <= MaxUint32 ->
  1 <= (nextID conn).1 <= MaxUint32.
Proof.
  intros Hr. rewrite nextID_value by assumption.
  pose proof (Z.mod_pos_bound (requestID conn) MaxUint32 eq_refl). lia.
Qed.

(** [nextID] touches no field but the counter. *)
Lemma nextID_fields (conn : Connection) :
  (nextID conn).2 = set_requestID conn ((nextID conn).1).
Proof.
  unfold nextID. destruct (requestID conn =? MaxUint32); reflexivity.
Qed.

Lemma nextIDs_length (n : nat) (conn : Connection) :
  length (nextIDs n conn).1 = n.
Proof.
  revert conn. induction n as [|n IH]; intros conn; [reflexivity|].
  cbn [nextIDs]. destruct (nextID conn) as [id conn1].
  specialize (IH conn1). destruct (nextIDs n conn1) as [ids conn2].
  cbn in *. now rewrite IH.
Qed.

(** The [k]-th of [n] consecutive calls returns the counter advanced [k+1]
    times around the cycle [1 .. MaxUint32]. *)
Lemma nextIDs_lookup (n : nat) (conn : Connection) (k : nat) :
  0 <= requestID conn <= MaxUint32 ->
  (k < n)%nat ->
  (nextIDs n conn).1 !! k
    = Some ((requestID conn + Z.of_nat k) mod MaxUint32 + 1).
Proof.
  revert conn k. induction n as [|n IH]; intros conn k Hr Hk; [lia|].
  cbn [nextIDs].
  pose proof (nextID_value conn Hr) as Hv.
  pose proof (nextID_range conn Hr) as Hrange.
  pose proof (nextID_state conn) as Hs.
  destruct (nextID conn) as [id conn1]. cbn [fst snd] in *.
  specialize (IH conn1).
  destruct (nextIDs n conn1) as [ids conn2]. cbn [fst] in *.
  destruct k as [|k].
  - cbn. rewrite Z.add_0_r. now rewrite Hv.
  - cbn [lookup list_lookup]. rewrite IH by lia.
    f_equal. f_equal. rewrite Hs, Hv.
    replace (requestID conn mod MaxUint32 + 1 + Z.of_nat k)
      with (requestID conn mod MaxUint32 + Z.of_nat (S k)) by lia.
    rewrite Zplus_mod_idemp_l. reflexivity.
Qed.

(** Fewer than [2^32] consecutive calls never return an ID twice, whatever
    the counter was before. *)
Lemma nextIDs_NoDup (n : nat) (conn : Connection) :
  0 <= requestID conn <= MaxUint32 ->
  Z.of_nat n < 2 ^ 32 ->
  NoDup (nextIDs n conn).1.
Proof.
  intros Hr Hn. apply NoDup_alt. intros i j x Hi Hj.
  assert (i < n)%nat as Hin.
  { apply lookup_lt_Some in Hi. now rewrite nextIDs_length in Hi. }
  assert (j < n)%nat as Hjn.
  { apply lookup_lt_Some in Hj. now rewrite nextIDs_length in Hj. }
  rewrite nextIDs_lookup in Hi by assumption.
  rewrite nextIDs_lookup in Hj by assumption.
  assert ((requestID conn + Z.of_nat i) mod MaxUint32
          = (requestID conn + Z.of_nat j) mod MaxUint32) as Heq.
  { injection Hi as Hi. injection Hj as Hj. lia. }
  rewrite MaxUint32_eq in *.
  set (M := 2 ^ 32 - 1) in *.
  assert (0 < M) as HM by (subst M; lia).
  assert (Z.of_nat n <= M) as HnM by (subst M; lia).
  pose proof (Z.div_mod (requestID conn + Z.of_nat i) M ltac:(lia)) as Di.
  pose proof (Z.div_mod (requestID conn + Z.of_nat j) M ltac:(lia)) as Dj.
  pose proof (Z.mod_pos_bound (requestID conn + Z.of_nat i) M HM) as Bi.
  assert (Z.of_nat i - Z.of_nat j
          = M * ((requestID conn + Z.of_nat i) / M
                 - (requestID conn + Z.of_nat j) / M)) as Hd by lia.
  assert ((requestID conn + Z.of_nat i) / M
          - (requestID conn + Z.of_nat j) / M = 0) as Hz by nia.
  rewrite Hz in Hd. lia.
Qed.

(** C2: the IDs returned by [n < 2^32] consecutive calls of [nextID] on a
    new connection are 1, 2, ..., [n] in call order, hence strictly
    increasing by one and pairwise distinct, and 0 is not among them; in
    every state [nextID] returns a non-zero ID, the successor of the last
    one, and 1 after it has returned the maximum 32-bit value. *)
Theorem nextID_sequence (conn : Connection) (n : nat) :
  requestID conn = 0 ->
  Z.of_nat n < 2 ^ 32 ->
  (forall k, (k < n)%nat -> (nextIDs n conn).1 !! k = Some (Z.of_nat k + 1))
  /\ NoDup (nextIDs n conn).1
  /\ (forall i j a b, (i < j)%nat ->
        (nextIDs n conn).1 !! i = Some a ->
        (nextIDs n conn).1 !! j = Some b -> a < b)
  /\ ~ 0 ∈ (nextIDs n conn).1
  /\ (forall c, 0 <= requestID c <= MaxUint32 ->
        (nextID c).1 <> 0
        /\ requestID (nextID c).2 = (nextID c).1
        /\ (requestID c < MaxUint32 -> (nextID c).1 = requestID c + 1)
        /\ ((nextID c).1 = MaxUint32 -> (nextID (nextID c).2).1 = 1)).
Proof.
  intros H0 Hn.
  assert (0 <= requestID conn <= MaxUint32) as Hr by (rewrite H0; done).
  assert (forall k, (k < n)%nat ->
            (nextIDs n conn).1 !! k = Some (Z.of_nat k + 1)) as Hk.
  { intros k Hlt. rewrite nextIDs_lookup by assumption.
    rewrite H0, Z.add_0_l, Z.mod_small; [reflexivity|].
    rewrite MaxUint32_eq. lia. }
  split; [exact Hk|]. split; [now apply nextIDs_NoDup|].
  split; [|split].
  - intros i j a b Hij Hi Hj.
    assert (j < n)%nat as Hjn.
    { apply lookup_lt_Some in Hj. now rewrite nextIDs_length in Hj. }
    rewrite Hk in Hi by lia. rewrite Hk in Hj by lia.
    injection Hi as <-. injection Hj as <-. lia.
  - intros Hin. apply list_elem_of_lookup in Hin as [k Hl].
    assert (k < n)%nat as Hkn.
    { apply lookup_lt_Some in Hl. now rewrite nextIDs_length in Hl. }
    rewrite Hk in Hl by assumption. injection Hl as Hl. lia.
  - intros c Hc. pose proof (nextID_range c Hc) as Hrange.
    split; [lia|]. split; [apply nextID_state|]. split.
    + intros Hlt. rewrite nextID_value by assumption.
      rewrite Z.mod_small by lia. reflexivity.
    + intros Hmax. rewrite nextID_value.
      * rewrite nextID_state, Hmax, Z_mod_same_full. reflexivity.
      * rewrite nextID_state. lia.
Qed.

Lemma nextID_sequence_witness :
  (nextIDs 3 (emptyConnection "localhost")).1 !! 2%nat = Some 3.
Proof.
  apply (nextID_sequence (emptyConnection "localhost") 3); [reflexivity | lia | lia].
Defined.

#[local] Arguments nextID : simpl never.

(** ** Reply channels *)

Lemma chan_send_open (h : gmap nat chan) c v vs :
  chan_open h c vs ->
  chan_send c v h = Some (<[c := {| ch_sent := vs ++ [v]; ch_closed := false |}]> h).
Proof. unfold chan_open, chan_send. intros ->. reflexivity. Qed.

Lemma chan_close_open (h : gmap nat chan) c vs :
  chan_open h c vs ->
  chan_close c h = Some (<[c := {| ch_sent := vs; ch_closed := true |}]> h).
Proof. unfold chan_open, chan_close. intros ->. reflexivity. Qed.

Lemma chan_send_done (h : gmap nat chan) c v vs :
  chan_done h c vs -> chan_send c v h = None.
Proof. unfold chan_done, chan_send. intros ->. reflexivity. Qed.

Lemma chan_close_done (h : gmap nat chan) c vs :
  chan_done h c vs -> chan_close c h = None.
Proof. unfold chan_done, chan_close. intros ->. reflexivity. Qed.

(** Send-then-close, the delivery used by eviction, [handleReply] and the
    worker's clean-up. *)
Lemma send_close_open (h : gmap nat chan) c v vs :
  chan_open h c vs ->
  (h1 ← chan_send c v h; chan_close c h1)
    = Some (<[c := {| ch_sent := vs ++ [v]; ch_closed := true |}]> h).
Proof.
  intros Ho. rewrite (chan_send_open h c v vs Ho). cbn.
  rewrite (chan_close_open _ c (vs ++ [v])).
  - now rewrite insert_insert_eq.
  - unfold chan_open. apply lookup_insert_eq.
Qed.

Lemma fail_request_open (req : request) (h : gmap nat chan) vs :
  chan_open h (replyChan req) vs ->
  fail_request req h
    = Some (<[replyChan req :=
                {| ch_sent := vs ++ [ResponseError ConnectionClosedError];
                   ch_closed := true |}]> h).
Proof. intros Ho. unfold fail_request. now apply send_close_open. Qed.

(** ** [newRequest] *)

Lemma newRequest_unfold (r : request) (conn : Connection) (h : gmap nat chan) :
  newRequest r conn h =
  '(conn2, h2) ← after_eviction (nextID conn).1 (nextID conn).2 h;
  match (Pack (query r) (nextID conn).1 (defaultSpace conn2)).2 with
  | Some e =>
      h3 ← chan_send (replyChan r) (ResponseError (QueryError e)) h2;
      Some (Some e,
            set_raw r (Pack (query r) (nextID conn).1 (defaultSpace conn2)).1,
            conn2, h3)
  | None =>
      Some (None,
            set_raw r (Pack (query r) (nextID conn).1 (defaultSpace conn2)).1,
            set_requests conn2
              (<[(nextID conn).1 :=
                   set_raw r (Pack (query r) (nextID conn).1 (defaultSpace conn2)).1]>
                 (requests conn2)), h2)
  end.
Proof.
  unfold newRequest, after_eviction.
  destruct (nextID conn) as [id conn1]. cbn [fst snd].
  destruct (requests conn1 !! id) as [old|]; cbn.
  - destruct (chan_send _ _ h) as [h1|]; cbn; [|reflexivity].
    destruct (chan_close _ h1) as [h2|]; cbn; [|reflexivity].
    destruct (Pack (query r) id _) as [bytes [e|]]; reflexivity.
  - destruct (Pack (query r) id _) as [bytes [e|]]; reflexivity.
Qed.

Lemma nextID_requests (conn : Connection) :
  requests (nextID conn).2 = requests conn.
Proof. rewrite nextID_fields. reflexivity. Qed.

Lemma nextID_defaultSpace (conn : Connection) :
  defaultSpace (nextID conn).2 = defaultSpace conn.
Proof. rewrite nextID_fields. reflexivity. Qed.

(** Without a collision the eviction block does nothing. *)
Lemma after_eviction_free (id : Z) (conn1 : Connection) (h : gmap nat chan) :
  requests conn1 !! id = None ->
  after_eviction id conn1 h = Some (conn1, h).
Proof. unfold after_eviction. intros ->. reflexivity. Qed.

(** With a collision the stale entry is sent the connection error, its
    channel is closed and the entry is deleted. *)
Lemma after_eviction_stale (id : Z) (conn1 : Connection) (h : gmap nat chan)
    (old : request) vs :
  requests conn1 !! id = Some old ->
  chan_open h (replyChan old) vs ->
  after_eviction id conn1 h
    = Some (set_requests conn1 (delete id (requests conn1)),
            <[replyChan old :=
                {| ch_sent :=
                     vs ++ [ResponseError (NewConnectionError "Shred old requests")];
                   ch_closed := true |}]> h).
Proof.
  unfold after_eviction. intros -> Ho.
  pose proof (send_close_open h (replyChan old)
                (ResponseError (NewConnectionError "Shred old requests")) vs Ho) as E.
  destruct (chan_send _ _ h) as [h1|]; cbn in *; [|discriminate].
  rewrite E. reflexivity.
Qed.

(** The eviction block changes the registry by deleting the allocated ID
    and nothing else of the connection. *)
Lemma after_eviction_conn (id : Z) (conn1 conn2 : Connection)
    (h h2 : gmap nat chan) :
  after_eviction id conn1 h = Some (conn2, h2) ->
  conn2 = set_requests conn1 (delete id (requests conn1)).
Proof.
  unfold after_eviction. destruct (requests conn1 !! id) as [old|] eqn:E.
  - destruct (chan_send _ _ h) as [h1|]; cbn; [|discriminate].
    destruct (chan_close _ h1) as [h2'|]; cbn; [|discriminate].
    now intros [= <- <-].
  - intros [= <- <-]. rewrite delete_id by assumption. now destruct conn1.
Qed.

(** [newRequest] when [Pack] fails. *)
Lemma newRequest_pack_error (r : request) (conn conn2 : Connection)
    (h h2 : gmap nat chan) bytes e vs :
  Pack (query r) (nextID conn).1 (defaultSpace conn) = (bytes, Some e) ->
  after_eviction (nextID conn).1 (nextID conn).2 h = Some (conn2, h2) ->
  chan_open h2 (replyChan r) vs ->
  newRequest r conn h
    = Some (Some e, set_raw r bytes, conn2,
            <[replyChan r :=
                {| ch_sent := vs ++ [ResponseError (QueryError e)];
                   ch_closed := false |}]> h2).
Proof.
  intros HP He Ho. rewrite newRequest_unfold, He. cbn.
  rewrite (after_eviction_conn _ _ _ _ _ He). cbn [set_requests defaultSpace].
  rewrite nextID_defaultSpace, HP. cbn.
  rewrite (chan_send_open h2 _ _ vs Ho). reflexivity.
Qed.

(** [newRequest] when [Pack] succeeds. *)
Lemma newRequest_pack_ok (r : request) (conn conn2 : Connection)
    (h h2 : gmap nat chan) bytes :
  Pack (query r) (nextID conn).1 (defaultSpace conn) = (bytes, None) ->
  after_eviction (nextID conn).1 (nextID conn).2 h = Some (conn2, h2) ->
  newRequest r conn h
    = Some (None, set_raw r bytes,
            set_requests conn2
              (<[(nextID conn).1 := set_raw r bytes]> (requests conn2)), h2).
Proof.
  intros HP He. rewrite newRequest_unfold, He. cbn.
  rewrite (after_eviction_conn _ _ _ _ _ He). cbn [set_requests defaultSpace].
  rewrite nextID_defaultSpace, HP. reflexivity.
Qed.

(** The eviction block completes when a stale entry, if there is one, has
    an open channel; every other channel is left as it was. *)
Lemma after_eviction_total (id : Z) (conn1 : Connection) (h : gmap nat chan) :
  (forall old, requests conn1 !! id = Some old ->
     exists ovs, chan_open h (replyChan old) ovs) ->
  exists h2,
    after_eviction id conn1 h
      = Some (set_requests conn1 (delete id (requests conn1)), h2)
    /\ (requests conn1 !! id = None -> h2 = h)
    /\ (forall c, (forall old, requests conn1 !! id = Some old ->
                     replyChan old <> c) -> h2 !! c = h !! c).
Proof.
  intros Hold. destruct (requests conn1 !! id) as [old|] eqn:E.
  - destruct (Hold old eq_refl) as [ovs Ho].
    eexists. split; [now apply (after_eviction_stale id conn1 h old ovs)|].
    split; [discriminate|].
    intros c Hc. rewrite lookup_insert_ne; [reflexivity|]. now apply Hc.
  - exists h. rewrite after_eviction_free by assumption.
    rewrite delete_id by assumption.
    split; [now destruct conn1|]. split; reflexivity.
Qed.

(** The lifecycle fields of the connection are not touched by
    [newRequest]. *)
Lemma after_eviction_lifecycle (conn : Connection) (m : gmap Z request) :
  let conn' := set_requests (nextID conn).2 m in
  closeOnce conn' = closeOnce conn /\ exit conn' = exit conn
  /\ closed conn' = closed conn /\ tcpConn conn' = tcpConn conn
  /\ requestChan conn' = requestChan conn
  /\ defaultSpace conn' = defaultSpace conn.
Proof. cbn. rewrite nextID_fields. cbn. repeat split. Qed.

(** C7: when the payload of the request at the head of the submission
    queue fails to serialize, the router iteration that takes it delivers
    the query error on the submitter's reply channel and goes on with the
    loop; the request is not registered and not put on the writer's queue,
    no registry entry under another ID changes (the registry is the old
    one without a stale entry under the allocated ID, so it is unchanged
    when there is no wraparound collision), and the lifecycle fields of
    the connection are unchanged. *)
Theorem pack_failure_is_local (p : pipeline) (w : write_case) (r : request)
    (queue : list request) (bytes : list byte) (e : error)
    (vs : list Response) :
  let conn := set_requestChan (p_conn p) queue in
  let id := (nextID conn).1 in
  router_requestChan p = Some (r :: queue) ->
  Pack (query r) id (defaultSpace conn) = (bytes, Some e) ->
  chan_open (p_chans p) (replyChan r) vs ->
  (forall old, requests conn !! id = Some old ->
     replyChan old <> replyChan r
     /\ exists ovs, chan_open (p_chans p) (replyChan old) ovs) ->
  exists conn' h',
    newRequest r conn (p_chans p) = Some (Some e, set_raw r bytes, conn', h')
    /\ router_iter CaseRequest w p
       = Continue {| p_conn := conn'; p_chans := h';
                     readChan := readChan p; writeChan := writeChan p |}
    /\ chan_open h' (replyChan r) (vs ++ [ResponseError (QueryError e)])
    /\ requests conn' = delete id (requests (p_conn p))
    /\ (forall k, k <> id -> requests conn' !! k = requests (p_conn p) !! k)
    /\ (requests (p_conn p) !! id = None ->
        requests conn' = requests (p_conn p)
        /\ forall c, c <> replyChan r -> h' !! c = p_chans p !! c)
    /\ closeOnce conn' = closeOnce (p_conn p)
    /\ exit conn' = exit (p_conn p)
    /\ closed conn' = closed (p_conn p)
    /\ tcpConn conn' = tcpConn (p_conn p)
    /\ requestChan conn' = queue.
Proof.
  intros conn id Hsel HP Ho Hold.
  destruct (after_eviction_total id (nextID conn).2 (p_chans p)) as (h2 & He & Hfree & Hother).
  { rewrite nextID_requests. intros old Hl. now apply Hold. }
  rewrite nextID_requests in He, Hfree, Hother.
  assert (chan_open h2 (replyChan r) vs) as Ho2.
  { unfold chan_open. rewrite Hother; [exact Ho|].
    intros old Hl. now apply Hold. }
  pose proof (newRequest_pack_error r conn _ _ _ bytes e vs HP He Ho2) as HN.
  pose proof (after_eviction_lifecycle conn (delete id (requests conn)))
    as (L1 & L2 & L3 & L4 & L5 & L6).
  eexists _, _. split; [exact HN|].
  split.
  { unfold router_iter. rewrite Hsel. fold conn. rewrite HN. reflexivity. }
  split; [unfold chan_open; apply lookup_insert_eq|].
  split; [reflexivity|].
  split; [intros k Hk; cbn; now rewrite lookup_delete_ne|].
  split.
  { intros Hnone. cbn. split; [now apply delete_id|].
    intros c Hc. rewrite lookup_insert_ne by congruence.
    now rewrite (Hfree Hnone). }
  cbn in *. repeat split; assumption.
Qed.

Lemma pack_failure_is_local_witness :
  exists conn' h',
    router_iter CaseRequest CaseWrite
      {| p_conn := set_requestChan (emptyConnection "localhost:3301") [failingRequest];
         p_chans := twoChans; readChan := []; writeChan := [] |}
    = Continue {| p_conn := conn'; p_chans := h'; readChan := []; writeChan := [] |}
    /\ chan_open h' 1%nat [ResponseError (QueryError (PackError 1))]
    /\ requests conn' = ∅.
Proof.
  destruct (pack_failure_is_local
              {| p_conn := set_requestChan (emptyConnection "localhost:3301") [failingRequest];
                 p_chans := twoChans; readChan := []; writeChan := [] |}
              CaseWrite failingRequest [] [] (PackError 1) [])
    as (conn' & h' & _ & Hit & Hch & _ & _ & Hreg & _).
  - reflexivity.
  - reflexivity.
  - reflexivity.
  - intros old Hl. discriminate Hl.
  - exists conn', h'. split; [exact Hit|]. split; [exact Hch|].
    apply Hreg. reflexivity.
Defined.

(** ** Delivery on the reply channel *)

(** A reply that finds its request is sent on the request's channel, the
    channel is closed and the entry is deleted. *)
Lemma handleReply_found (res : Response) (conn : Connection)
    (h : gmap nat chan) (req : request) vs :
  requests conn !! resp_requestID res = Some req ->
  chan_open h (replyChan req) vs ->
  handleReply res conn h
    = Some (set_requests conn (delete (resp_requestID res) (requests conn)),
            <[replyChan req := {| ch_sent := vs ++ [res]; ch_closed := true |}]> h).
Proof.
  intros Hl Ho. unfold handleReply. rewrite Hl.
  pose proof (send_close_open h (replyChan req) res vs Ho) as E.
  destruct (chan_send _ _ h) as [h1|]; cbn in *; [|discriminate].
  rewrite E. reflexivity.
Qed.

(** A reply whose ID is not registered is dropped. *)
Lemma handleReply_missing (res : Response) (conn : Connection)
    (h : gmap nat chan) :
  requests conn !! resp_requestID res = None ->
  handleReply res conn h = Some (conn, h).
Proof. intros Hl. unfold handleReply. now rewrite Hl. Qed.

(** ** The worker's clean-up *)

Lemma fail_request_inv (req : request) (h h' : gmap nat chan) :
  fail_request req h = Some h' ->
  exists vs,
    chan_open h (replyChan req) vs
    /\ h' = <[replyChan req :=
                {| ch_sent := vs ++ [ResponseError ConnectionClosedError];
                   ch_closed := true |}]> h.
Proof.
  unfold fail_request, chan_send, chan_close. intros H.
  destruct (h !! replyChan req) as [[vs [|]]|] eqn:E; cbn in H; try discriminate.
  rewrite lookup_insert_eq in H. cbn in H. rewrite insert_insert_eq in H.
  injection H as <-. exists vs. split; [exact E|reflexivity].
Qed.

Lemma fail_request_other (req : request) (h h' : gmap nat chan) (c : nat) :
  fail_request req h = Some h' -> replyChan req <> c -> h' !! c = h !! c.
Proof.
  intros H Hc. apply fail_request_inv in H as (vs & _ & ->).
  now rewrite lookup_insert_ne.
Qed.

(** A closed channel stays as it is: the clean-up never sends twice. *)
Lemma fail_request_done (req : request) (h h' : gmap nat chan) (c : nat) vs :
  fail_request req h = Some h' -> chan_done h c vs -> chan_done h' c vs.
Proof.
  intros H Hd. unfold chan_done. rewrite (fail_request_other req h h' c H); [exact Hd|].
  intros <-. apply fail_request_inv in H as (ws & Ho & _).
  unfold chan_open, chan_done in *. congruence.
Qed.

Lemma fetch_input_other (queue : list request) (h h' : gmap nat chan) (c : nat) :
  fetch_input queue h = Some h' ->
  (forall req, req ∈ queue -> replyChan req <> c) ->
  h' !! c = h !! c.
Proof.
  revert h. induction queue as [|req queue IH]; intros h H Hq; cbn in H.
  - now injection H as <-.
  - destruct (fail_request req h) as [h1|] eqn:E; cbn in H; [|discriminate].
    rewrite (IH h1 H).
    + apply (fail_request_other req h h1 c E). apply Hq. left.
    + intros req' Hin. apply Hq. now right.
Qed.

Lemma fetch_input_done (queue : list request) (h h' : gmap nat chan) (c : nat) vs :
  fetch_input queue h = Some h' -> chan_done h c vs -> chan_done h' c vs.
Proof.
  revert h. induction queue as [|req queue IH]; intros h H Hd; cbn in H.
  - now injection H as <-.
  - destruct (fail_request req h) as [h1|] eqn:E; cbn in H; [|discriminate].
    apply (IH h1 H). now apply (fail_request_done req h h1).
Qed.

(** Every request taken from the submission queue got the
    connection-closed response and a closed channel. *)
Lemma fetch_input_failed (queue : list request) (h h' : gmap nat chan) :
  fetch_input queue h = Some h' ->
  forall req, req ∈ queue ->
    exists vs, chan_done h' (replyChan req)
                 (vs ++ [ResponseError ConnectionClosedError]).
Proof.
  revert h. induction queue as [|req queue IH]; intros h H req' Hin; cbn in H.
  - inversion Hin.
  - destruct (fail_request req h) as [h1|] eqn:E; cbn in H; [|discriminate].
    apply elem_of_cons in Hin as [->|Hin].
    + destruct (fail_request_inv req h h1 E) as (vs & _ & ->).
      exists vs. apply (fetch_input_done queue _ h' _ _ H).
      unfold chan_done. apply lookup_insert_eq.
    + now apply (IH h1 H).
Qed.

Lemma fail_pending_other (entries : list (Z * request)) (conn conn' : Connection)
    (h h' : gmap nat chan) (c : nat) :
  fail_pending entries conn h = Some (conn', h') ->
  (forall k req, (k, req) ∈ entries -> replyChan req <> c) ->
  h' !! c = h !! c.
Proof.
  revert conn h. induction entries as [|[k req] entries IH]; intros conn h H Hq; cbn in H.
  - now injection H as <- <-.
  - destruct (fail_request req h) as [h1|] eqn:E; cbn in H; [|discriminate].
    rewrite (IH _ h1 H).
    + apply (fail_request_other req h h1 c E). apply (Hq k). left.
    + intros k' req' Hin. apply (Hq k'). now right.
Qed.

Lemma fail_pending_done (entries : list (Z * request)) (conn conn' : Connection)
    (h h' : gmap nat chan) (c : nat) vs :
  fail_pending entries conn h = Some (conn', h') ->
  chan_done h c vs -> chan_done h' c vs.
Proof.
  revert conn h. induction entries as [|[k req] entries IH]; intros conn h H Hd; cbn in H.
  - now injection H as <- <-.
  - destruct (fail_request req h) as [h1|] eqn:E; cbn in H; [|discriminate].
    apply (IH _ h1 H). now apply (fail_request_done req h h1).
Qed.

(** Every entry visited got the connection-closed response and a closed
    channel. *)
Lemma fail_pending_failed (entries : list (Z * request)) (conn conn' : Connection)
    (h h' : gmap nat chan) :
  fail_pending entries conn h = Some (conn', h') ->
  forall k req, (k, req) ∈ entries ->
    exists vs, chan_done h' (replyChan req)
                 (vs ++ [ResponseError ConnectionClosedError]).
Proof.
  revert conn h. induction entries as [|[k req] entries IH];
    intros conn h H k' req' Hin; cbn in H.
  - inversion Hin.
  - destruct (fail_request req h) as [h1|] eqn:E; cbn in H; [|discriminate].
    apply elem_of_cons in Hin as [[= -> ->]|Hin].
    + destruct (fail_request_inv req h h1 E) as (vs & _ & ->).
      exists vs. apply (fail_pending_done entries _ conn' _ h' _ _ H).
      unfold chan_done. apply lookup_insert_eq.
    + now apply (IH _ h1 H k').
Qed.

(** The clean-up deletes the visited IDs and touches nothing else of the
    connection. *)
Lemma fail_pending_conn (entries : list (Z * request)) (conn conn' : Connection)
    (h h' : gmap nat chan) :
  fail_pending entries conn h = Some (conn', h') ->
  conn' = set_requests conn (foldl (fun m k => delete k m) (requests conn) entries.*1).
Proof.
  revert conn h. induction entries as [|[k req] entries IH]; intros conn h H; cbn in H.
  - injection H as <- <-. now destruct conn.
  - destruct (fail_request req h) as [h1|] eqn:E; cbn in H; [|discriminate].
    rewrite (IH _ h1 H). reflexivity.
Qed.

Lemma foldl_delete_lookup (ks : list Z) (m : gmap Z request) (k : Z) :
  foldl (fun m k => delete k m) m ks !! k
  = if decide (k ∈ ks) then None else m !! k.
Proof.
  revert m. induction ks as [|k0 ks IH]; intros m; cbn.
  - rewrite decide_False; [reflexivity|]. apply not_elem_of_nil.
  - rewrite IH. destruct (decide (k ∈ ks)) as [Hin|Hnin].
    + rewrite decide_True; [reflexivity|]. now right.
    + destruct (decide (k = k0)) as [->|Hne].
      * rewrite decide_True by left. apply lookup_delete_eq.
      * rewrite decide_False.
        -- now apply lookup_delete_ne.
        -- intros Hin. apply elem_of_cons in Hin as [?|?]; congruence.
Qed.

(** Visiting all entries of the registry, in whatever order, empties it. *)
Lemma fail_pending_empties (entries : list (Z * request)) (conn conn' : Connection)
    (h h' : gmap nat chan) :
  entries ≡ₚ map_to_list (requests conn) ->
  fail_pending entries conn h = Some (conn', h') ->
  requests conn' = ∅.
Proof.
  intros Hperm H. rewrite (fail_pending_conn _ _ _ _ _ H). cbn.
  apply map_empty. intros k. rewrite foldl_delete_lookup.
  destruct (decide (k ∈ entries.*1)) as [Hin|Hnin]; [reflexivity|].
  destruct (requests conn !! k) as [req|] eqn:E; [|reflexivity].
  exfalso. apply Hnin. apply list_elem_of_fmap. exists (k, req).
  split; [reflexivity|]. rewrite Hperm. now apply elem_of_map_to_list.
Qed.

Lemma worker_teardown_inv (entries : list (Z * request)) (conn conn' : Connection)
    (h h' : gmap nat chan) :
  worker_teardown entries conn h = Some (conn', h') ->
  exists conn1 h1,
    fail_pending entries conn h = Some (conn1, h1)
    /\ fetch_input (requestChan conn) h1 = Some h'
    /\ requests conn' = requests conn1
    /\ requestChan conn' = []
    /\ closed conn' = S (closed conn)
    /\ closeOnce conn' = closeOnce conn
    /\ exit conn' = exit conn
    /\ tcpConn conn' = tcpConn conn.
Proof.
  unfold worker_teardown. intros H.
  destruct (fail_pending entries conn h) as [[conn1 h1]|] eqn:E; cbn in H;
    [|discriminate].
  pose proof (fail_pending_conn _ _ _ _ _ E) as Hc.
  assert (requestChan conn1 = requestChan conn) as Hq by (rewrite Hc; reflexivity).
  rewrite Hq in H.
  destruct (fetch_input (requestChan conn) h1) as [h2|] eqn:F; cbn in H;
    [|discriminate].
  injection H as <- <-. exists conn1, h1.
  split; [reflexivity|]. split; [exact F|]. rewrite Hc. cbn. repeat split.
Qed.

(** C1: on the serialization-failure path the code departs from the
    claim.  [newRequest] sends the query error on the submitter's reply
    channel and returns without closing it: the channel holds exactly one
    more value and is still open, and the request is neither registered
    nor left in the submission queue, so neither [handleReply] nor the
    worker's clean-up will close it later.  (Eviction, [handleReply] and
    the clean-up loops send one value and then close the channel.) *)
Theorem pack_failure_leaves_channel_open (r : request) (conn : Connection)
    (h : gmap nat chan) (bytes : list byte) (e : error) (vs : list Response) :
  Pack (query r) (nextID conn).1 (defaultSpace conn) = (bytes, Some e) ->
  chan_open h (replyChan r) vs ->
  requests conn !! (nextID conn).1 = None ->
  exists conn' h',
    newRequest r conn h = Some (Some e, set_raw r bytes, conn', h')
    /\ h' !! replyChan r
       = Some {| ch_sent := vs ++ [ResponseError (QueryError e)];
                 ch_closed := false |}
    /\ requests conn' = requests conn
    /\ requestChan conn' = requestChan conn
    /\ forall entries conn'' h'',
         (forall k req, (k, req) ∈ entries -> replyChan req <> replyChan r) ->
         (forall req, req ∈ requestChan conn' -> replyChan req <> replyChan r) ->
         worker_teardown entries conn' h' = Some (conn'', h'') ->
         h'' !! replyChan r
         = Some {| ch_sent := vs ++ [ResponseError (QueryError e)];
                   ch_closed := false |}.
Proof.
  intros HP Ho Hfree.
  pose proof (after_eviction_free (nextID conn).1 (nextID conn).2 h) as He.
  rewrite nextID_requests in He. specialize (He Hfree).
  pose proof (newRequest_pack_error r conn _ _ _ bytes e vs HP He Ho) as HN.
  eexists _, _. split; [exact HN|].
  split; [apply lookup_insert_eq|].
  split; [apply nextID_requests|].
  split; [rewrite nextID_fields; reflexivity|].
  intros entries conn'' h'' Hent Hqueue HT.
  apply worker_teardown_inv in HT as (conn1 & h1 & HF & HI & _).
  rewrite (fetch_input_other _ _ _ (replyChan r) HI Hqueue).
  rewrite (fail_pending_other _ _ _ _ _ (replyChan r) HF Hent).
  apply lookup_insert_eq.
Qed.

Lemma pack_failure_leaves_channel_open_witness :
  exists conn' h',
    newRequest failingRequest (emptyConnection "localhost:3301") twoChans
      = Some (Some (PackError 1), failingRequest, conn', h')
    /\ h' !! 1%nat
       = Some {| ch_sent := [ResponseError (QueryError (PackError 1))];
                 ch_closed := false |}.
Proof.
  destruct (pack_failure_leaves_channel_open failingRequest
              (emptyConnection "localhost:3301") twoChans [] (PackError 1) [])
    as (conn' & h' & HN & Hch & _).
  - reflexivity.
  - reflexivity.
  - reflexivity.
  - exists conn', h'. split; [exact HN | exact Hch].
Defined.

(** ** Wraparound eviction *)

(** C3 (as amended): when [newRequest] allocates an ID under which a prior
    entry is still registered, the prior entry is sent the connection
    error, its channel is closed and it is removed, and entries under
    other IDs stay; if the new request serializes, it is then the entry
    under that ID, and a reply with that ID is delivered to the new
    request and not to the old one; if it does not serialize, no entry is
    left under that ID. *)
Theorem collision_evicts_stale_entry (r old : request) (conn : Connection)
    (h : gmap nat chan) (vs ovs : list Response) :
  let id := (nextID conn).1 in
  let shred := ResponseError (NewConnectionError "Shred old requests") in
  requests conn !! id = Some old ->
  chan_open h (replyChan old) ovs ->
  chan_open h (replyChan r) vs ->
  replyChan old <> replyChan r ->
  exists r' conn' h',
    newRequest r conn h
      = Some ((Pack (query r) id (defaultSpace conn)).2, r', conn', h')
    /\ chan_done h' (replyChan old) (ovs ++ [shred])
    /\ (forall k, k <> id -> requests conn' !! k = requests conn !! k)
    /\ replyChan r' = replyChan r
    /\ match (Pack (query r) id (defaultSpace conn)).2 with
       | None =>
           requests conn' !! id = Some r'
           /\ chan_open h' (replyChan r) vs
           /\ forall res, resp_requestID res = id ->
                exists conn'' h'',
                  handleReply res conn' h' = Some (conn'', h'')
                  /\ chan_done h'' (replyChan r) (vs ++ [res])
                  /\ chan_done h'' (replyChan old) (ovs ++ [shred])
                  /\ requests conn'' !! id = None
       | Some e => requests conn' !! id = None
       end.
Proof.
  intros id shred Hold Hoo Hor Hne.
  pose proof (after_eviction_stale id (nextID conn).2 h old ovs) as He.
  rewrite nextID_requests in He. specialize (He Hold Hoo).
  fold shred in He.
  assert (chan_open (<[replyChan old :=
                         {| ch_sent := ovs ++ [shred]; ch_closed := true |}]> h)
            (replyChan r) vs) as Hor2.
  { unfold chan_open. now rewrite lookup_insert_ne. }
  destruct (Pack (query r) id (defaultSpace conn)) as [bytes [e|]] eqn:HP.
  - pose proof (newRequest_pack_error r conn _ _ _ bytes e vs HP He Hor2) as HN.
    eexists _, _, _. split; [exact HN|].
    split. { unfold chan_done. rewrite lookup_insert_ne by congruence.
             apply lookup_insert_eq. }
    split. { intros k Hk. cbn. now rewrite lookup_delete_ne. }
    split; [reflexivity|]. cbn. apply lookup_delete_eq.
  - pose proof (newRequest_pack_ok r conn _ _ _ bytes HP He) as HN.
    eexists _, _, _. split; [exact HN|].
    split; [unfold chan_done; apply lookup_insert_eq|].
    split. { intros k Hk. cbn.
             rewrite lookup_insert_ne by (intros E; apply Hk; now rewrite <- E).
             now rewrite lookup_delete_ne. }
    split; [reflexivity|]. cbn [snd].
    split; [cbn; apply lookup_insert_eq|]. split; [exact Hor2|].
    intros res Hres.
    eexists _, _. split.
    { apply (handleReply_found res _ _ (set_raw r bytes) vs).
      - rewrite Hres. cbn. apply lookup_insert_eq.
      - exact Hor2. }
    split; [unfold chan_done; cbn; apply lookup_insert_eq|].
    split. { unfold chan_done. cbn. rewrite lookup_insert_ne by congruence.
             apply lookup_insert_eq. }
    cbn. rewrite Hres. apply lookup_delete_eq.
Qed.

Lemma collision_evicts_stale_entry_witness :
  exists r' conn' h',
    newRequest plainRequest staleConnection twoChans = Some (None, r', conn', h')
    /\ chan_done h' 0%nat
         [ResponseError (NewConnectionError "Shred old requests")]
    /\ requests conn' !! 1 = Some r'
    /\ replyChan r' = 1%nat.
Proof.
  destruct (collision_evicts_stale_entry plainRequest staleRequest
              staleConnection twoChans [] [])
    as (r' & conn' & h' & HN & Hold & _ & Hr & Hnew & _).
  - reflexivity.
  - reflexivity.
  - reflexivity.
  - cbn. lia.
  - exists r', conn', h'. split; [exact HN|]. split; [exact Hold|].
    split; [exact Hnew | exact Hr].
Defined.

(** C3 as stated fails: the stale entry under ID 1 is evicted, the new
    request does not serialize, and afterwards no entry is registered
    under ID 1, so a reply with ID 1 reaches neither request. *)
Lemma collision_without_new_entry :
  (nextID staleConnection).1 = 1
  /\ requests staleConnection !! 1 = Some staleRequest
  /\ exists conn' h',
       newRequest failingRequest staleConnection twoChans
         = Some (Some (PackError 1), failingRequest, conn', h')
       /\ requests conn' !! 1 = None
       /\ forall res, resp_requestID res = 1 ->
            handleReply res conn' h' = Some (conn', h').
Proof.
  split; [reflexivity|]. split; [reflexivity|].
  pose proof (after_eviction_stale 1 (nextID staleConnection).2 twoChans
                staleRequest [] eq_refl eq_refl) as He.
  pose proof (newRequest_pack_error failingRequest staleConnection _ _ _
                [] (PackError 1) [] eq_refl He) as HN.
  eexists _, _. split.
  - apply HN. reflexivity.
  - split; [cbn; apply lookup_delete_eq|].
    intros res Hres. apply handleReply_missing. rewrite Hres. cbn.
    apply lookup_delete_eq.
Qed.

(** ** Backpressure in the router *)

(** The integer threshold [cap(readChan) / 10] is exceeded exactly when
    the occupancy exceeds a tenth of the capacity. *)
Lemma over_threshold_iff (n : nat) :
  (Z.of_nat n >? readChanThreshold) = true <-> 10 * Z.of_nat n > readChanCap.
Proof.
  change readChanThreshold with 25. change readChanCap with 256.
  rewrite Z.gtb_ltb, Z.ltb_lt. lia.
Qed.

Lemma router_requestChan_over (p : pipeline) :
  10 * Z.of_nat (length (readChan p)) > readChanCap ->
  router_requestChan p = None.
Proof.
  intros H. unfold router_requestChan.
  apply over_threshold_iff in H. now rewrite H.
Qed.

Lemma router_requestChan_under (p : pipeline) :
  10 * Z.of_nat (length (readChan p)) <= readChanCap ->
  router_requestChan p = Some (requestChan (p_conn p)).
Proof.
  intros H. unfold router_requestChan.
  destruct (Z.of_nat (length (readChan p)) >? readChanThreshold) eqn:E;
    [|reflexivity].
  apply over_threshold_iff in E. lia.
Qed.

(** [handleReply] adds nothing to the registry and leaves the submission
    queue alone. *)
Lemma handleReply_conn (res : Response) (conn conn' : Connection)
    (h h' : gmap nat chan) :
  handleReply res conn h = Some (conn', h') ->
  conn' = set_requests conn (delete (resp_requestID res) (requests conn)).
Proof.
  unfold handleReply.
  destruct (requests conn !! resp_requestID res) as [req|] eqn:E.
  - destruct (chan_send _ _ h) as [h1|]; cbn; [|discriminate].
    destruct (chan_close _ h1) as [h2|]; cbn; [|discriminate].
    now intros [= <- <-].
  - intros [= <- <-]. rewrite delete_id by assumption. now destruct conn.
Qed.

(** C4: in a router iteration that starts with the decoded-response queue
    holding more than a tenth of its capacity, the submission source is
    the nil channel: the request case cannot be taken, whatever the
    iteration does it takes nothing from the submission queue, forwards
    nothing to the writer and registers nothing, and the response case is
    ready and takes the oldest response; in an iteration that starts at or
    below that occupancy the submission source is the submission queue
    again, and its oldest request is taken when the writer's queue has
    room. *)
Theorem router_backpressure (p : pipeline) :
  (10 * Z.of_nat (length (readChan p)) > readChanCap ->
     router_requestChan p = None
     /\ (forall w, router_iter CaseRequest w p = NotReady)
     /\ (forall c w p',
           router_iter c w p = Continue p' \/ router_iter c w p = Break p' ->
           requestChan (p_conn p') = requestChan (p_conn p)
           /\ writeChan p' = writeChan p
           /\ requests (p_conn p') ⊆ requests (p_conn p))
     /\ exists res queue,
          readChan p = res :: queue
          /\ forall w,
               router_iter CaseResponse w p = RouterPanic
               \/ exists p', router_iter CaseResponse w p = Continue p'
                             /\ readChan p' = queue)
  /\ (10 * Z.of_nat (length (readChan p)) <= readChanCap ->
     router_requestChan p = Some (requestChan (p_conn p))
     /\ forall r queue,
          requestChan (p_conn p) = r :: queue ->
          Z.of_nat (length (writeChan p)) < writeChanCap ->
          router_iter CaseRequest CaseWrite p = RouterPanic
          \/ exists p', router_iter CaseRequest CaseWrite p = Continue p'
                        /\ requestChan (p_conn p') = queue).
Proof.
  split.
  - intros Hover. pose proof (router_requestChan_over p Hover) as Hnil.
    split; [exact Hnil|].
    split. { intros w. unfold router_iter. now rewrite Hnil. }
    split.
    + intros c w p' Hout. destruct c; unfold router_iter in Hout.
      * rewrite Hnil in Hout. destruct Hout; discriminate.
      * destruct (0 <? exit (p_conn p))%nat; destruct Hout as [Hout|Hout];
          try discriminate.
        injection Hout as <-. done.
      * destruct (readChan p) as [|res queue]; [destruct Hout; discriminate|].
        destruct (handleReply res (p_conn p) (p_chans p)) as [[conn' h']|] eqn:E;
          [|destruct Hout; discriminate].
        destruct Hout as [Hout|Hout]; [|discriminate].
        injection Hout as <-. cbn.
        rewrite (handleReply_conn _ _ _ _ _ E). cbn.
        split; [reflexivity|]. split; [reflexivity|]. apply delete_subseteq.
      * rewrite Hnil in Hout. destruct Hout; discriminate.
      * destruct (readChan p) as [|res queue];
          [cbn in Hover; change readChanCap with 256 in Hover; lia|].
        destruct Hout; discriminate.
    + destruct (readChan p) as [|res queue] eqn:Hq.
      { cbn in Hover. change readChanCap with 256 in Hover. lia. }
      exists res, queue. split; [reflexivity|].
      intros w. unfold router_iter. rewrite Hq.
      destruct (handleReply res (p_conn p) (p_chans p)) as [[conn' h']|];
        [right|left; reflexivity].
      eexists. split; reflexivity.
  - intros Hunder. pose proof (router_requestChan_under p Hunder) as Hsel.
    split; [exact Hsel|].
    intros r queue Hq Hroom. unfold router_iter. rewrite Hsel, Hq.
    destruct (newRequest r _ (p_chans p)) as [[[[[e|] r'] conn'] h']|] eqn:E;
      [right|right|left; reflexivity].
    + eexists. split; [reflexivity|]. cbn.
      rewrite newRequest_unfold in E.
      destruct (after_eviction _ _ (p_chans p)) as [[conn2 h2]|] eqn:Ev;
        cbn in E; [|discriminate].
      pose proof (after_eviction_conn _ _ _ _ _ Ev) as Hc.
      destruct (Pack (query r) _ _).2; cbn in E.
      * destruct (chan_send _ _ h2); cbn in E; [|discriminate].
        injection E as _ _ <- _. rewrite Hc. cbn. rewrite nextID_fields. reflexivity.
      * discriminate.
    + apply Z.ltb_lt in Hroom. rewrite Hroom.
      eexists. split; [reflexivity|]. cbn.
      rewrite newRequest_unfold in E.
      destruct (after_eviction _ _ (p_chans p)) as [[conn2 h2]|] eqn:Ev;
        cbn in E; [|discriminate].
      pose proof (after_eviction_conn _ _ _ _ _ Ev) as Hc.
      destruct (Pack (query r) _ _).2; cbn in E.
      * destruct (chan_send _ _ h2); cbn in E; discriminate.
      * injection E as _ <- _. rewrite Hc. cbn. rewrite nextID_fields. reflexivity.
Qed.

Lemma router_backpressure_witness :
  (forall w, router_iter CaseRequest w busyPipeline = NotReady)
  /\ router_requestChan calmPipeline = Some [plainRequest].
Proof.
  split.
  - apply (router_backpressure busyPipeline). vm_compute. reflexivity.
  - apply (router_backpressure calmPipeline). vm_compute. discriminate.
Defined.

(** ** The reader stage *)

Lemma ReadAtLeast_enough (r : list byte) (n : nat) :
  (0 < n <= length r)%nat ->
  ReadAtLeast r n = Ok (take n r, drop n r).
Proof.
  intros H. unfold ReadAtLeast.
  destruct (Nat.eqb_spec n 0); [lia|].
  destruct (Nat.eqb_spec (length r) 0); [lia|].
  destruct (Nat.ltb_spec (length r) n); [lia|]. reflexivity.
Qed.

Lemma ReadAtLeast_short (r : list byte) (n : nat) :
  (length r < n)%nat ->
  exists e, ReadAtLeast r n = Err e.
Proof.
  intros H. unfold ReadAtLeast.
  destruct (Nat.eqb_spec n 0); [lia|].
  destruct (Nat.eqb_spec (length r) 0); [now eexists|].
  destruct (Nat.ltb_spec (length r) n); [now eexists|lia].
Qed.

(** Whatever is on the socket, the reader adds nothing to [readChan]. *)
Lemma reader_delivers_nothing (fuel : nat) (tcp : list byte)
    (readChan : list Response) :
  reader (S fuel) tcp readChan = ReaderPanicked readChan
  \/ reader (S fuel) tcp readChan = ReaderStopped readChan.
Proof.
  unfold reader. cbn [reader_loop].
  destruct (ReadAtLeast tcp 12) as [[header tcp1]| |]; [|now right..].
  destruct (ReadAtLeast tcp1 (Z.to_nat 0)) as [[body tcp2]| |]; [now left|now right..].
Qed.

(** C5: the code departs from the claim.  Once the reader has read the
    twelve bytes of a frame header it reads an empty body ([bodyLen] is
    never assigned), sets [response] to nil and dereferences it: the
    reader panics in its first iteration and [readChan] is as it was, so
    no [Response] is decoded or delivered. *)
Theorem reader_panics_on_first_frame (fuel : nat) (tcp : list byte)
    (readChan : list Response) :
  (12 <= length tcp)%nat ->
  reader (S fuel) tcp readChan = ReaderPanicked readChan.
Proof.
  intros Hlen. unfold reader. cbn [reader_loop].
  rewrite ReadAtLeast_enough by lia. reflexivity.
Qed.

Lemma reader_panics_on_first_frame_witness :
  reader 1 twelveBytes [] = ReaderPanicked [].
Proof.
  apply (reader_panics_on_first_frame 0 twelveBytes []). cbn. lia.
Defined.

(** ** Framing *)

Lemma Z_of_byte_range (b : byte) : 0 <= Z_of_byte b < 256.
Proof.
  unfold Z_of_byte. pose proof (Byte.to_N_bounded b) as H.
  apply N.lt_succ_r in H. cbn in H. lia.
Qed.

Lemma Z_of_byte_of_Z (z : Z) : Z_of_byte (byte_of_Z z) = z mod 256.
Proof.
  unfold Z_of_byte, byte_of_Z.
  pose proof (Z.mod_pos_bound z 256 eq_refl) as Hb.
  destruct (Byte.of_N (Z.to_N (z mod 256))) as [b|] eqn:E.
  - apply Byte.to_of_N in E. rewrite E. apply Z2N.id. lia.
  - apply Byte.of_N_None_iff in E. lia.
Qed.

Lemma byte_of_Z_206 : byte_of_Z 206 = xce.
Proof. reflexivity. Qed.

Lemma wrap_int_small (z : Z) : - 2 ^ 63 <= z < 2 ^ 63 -> wrap_int z = z.
Proof. intros H. unfold wrap_int. rewrite Z.mod_small; lia. Qed.

(** On 64-bit [int] the sum of the four shifted bytes does not wrap. *)
Lemma headerBodyLength_value (m b1 b2 b3 b4 : byte) :
  headerBodyLength [m; b1; b2; b3; b4]
  = Z_of_byte b1 * 2 ^ 24 + Z_of_byte b2 * 2 ^ 16 + Z_of_byte b3 * 2 ^ 8
    + Z_of_byte b4.
Proof.
  unfold headerBodyLength, byte_at. cbn [nth].
  pose proof (Z_of_byte_range b1). pose proof (Z_of_byte_range b2).
  pose proof (Z_of_byte_range b3). pose proof (Z_of_byte_range b4).
  rewrite !Z.shiftl_mul_pow2 by lia.
  change (2 ^ 24) with 16777216. change (2 ^ 16) with 65536.
  change (2 ^ 8) with 256.
  rewrite (wrap_int_small (Z_of_byte b1 * 16777216)) by lia.
  rewrite (wrap_int_small (Z_of_byte b2 * 65536)) by lia.
  rewrite (wrap_int_small (Z_of_byte b3 * 256)) by lia.
  rewrite (wrap_int_small (Z_of_byte b1 * 16777216 + Z_of_byte b2 * 65536)) by lia.
  rewrite (wrap_int_small
             (Z_of_byte b1 * 16777216 + Z_of_byte b2 * 65536 + Z_of_byte b3 * 256))
    by lia.
  rewrite wrap_int_small by lia. reflexivity.
Qed.

(** The length read from a header is never negative: [make] cannot
    panic. *)
Lemma headerBodyLength_range (m b1 b2 b3 b4 : byte) :
  0 <= headerBodyLength [m; b1; b2; b3; b4] < 2 ^ 32.
Proof.
  rewrite headerBodyLength_value.
  pose proof (Z_of_byte_range b1). pose proof (Z_of_byte_range b2).
  pose proof (Z_of_byte_range b3). pose proof (Z_of_byte_range b4). lia.
Qed.

(** Four bytes, most significant first, hold a 32-bit value. *)
Lemma big_endian_32 (l : Z) :
  0 <= l < 2 ^ 32 ->
  Z_of_byte (byte_of_Z (Z.shiftr l 24)) * 2 ^ 24
  + Z_of_byte (byte_of_Z (Z.shiftr l 16)) * 2 ^ 16
  + Z_of_byte (byte_of_Z (Z.shiftr l 8)) * 2 ^ 8
  + Z_of_byte (byte_of_Z l) = l.
Proof.
  intros Hl. rewrite !Z_of_byte_of_Z, !Z.shiftr_div_pow2 by lia.
  change (2 ^ 24) with 16777216. change (2 ^ 16) with 65536.
  change (2 ^ 8) with 256. change (2 ^ 32) with 4294967296 in Hl.
  Z.div_mod_to_equations. lia.
Qed.

Lemma Z_of_byte_marker (b : byte) : Z_of_byte b = 206 <-> b = xce.
Proof.
  split; [|intros ->; reflexivity].
  intros H. unfold Z_of_byte in H.
  assert (Byte.to_N b = Byte.to_N xce) as E by (cbn; lia).
  pose proof (Byte.of_to_N b) as Hb. rewrite E in Hb.
  rewrite Byte.of_to_N in Hb. now injection Hb.
Qed.

(** Reading the five header bytes of a stream that has them. *)
Lemma ReadAtLeast_header (m b1 b2 b3 b4 : byte) (tl : list byte) :
  ReadAtLeast (m :: b1 :: b2 :: b3 :: b4 :: tl) PacketLengthBytes
  = Ok ([m; b1; b2; b3; b4], tl).
Proof. reflexivity. Qed.

Lemma ReadAtLeast_exact (payload rest : list byte) :
  payload <> [] ->
  ReadAtLeast (payload ++ rest) (length payload) = Ok (payload, rest).
Proof.
  intros Hne. rewrite ReadAtLeast_enough.
  - now rewrite take_app_length, drop_app_length.
  - rewrite length_app. destruct payload; [congruence|cbn; lia].
Qed.

(** A well-formed frame is read back: the body is what follows the
    header, the stream is left after it. *)
Lemma readMessage_frame (b1 b2 b3 b4 : byte) (payload rest : list byte) :
  headerBodyLength [xce; b1; b2; b3; b4] = Z.of_nat (length payload) ->
  payload <> [] ->
  readMessage (xce :: b1 :: b2 :: b3 :: b4 :: payload ++ rest)
  = (Ok payload, rest).
Proof.
  intros HL Hne. unfold readMessage. rewrite ReadAtLeast_header.
  change (Z_of_byte (byte_at [xce; b1; b2; b3; b4] 0) =? 206) with true.
  cbn [negb]. rewrite HL.
  assert (0 < Z.of_nat (length payload)) as Hpos.
  { destruct payload; [congruence|cbn [length]; lia]. }
  destruct (Z.eqb_spec (Z.of_nat (length payload)) 0); [lia|].
  destruct (Z.ltb_spec (Z.of_nat (length payload)) 0); [lia|].
  rewrite Nat2Z.id, ReadAtLeast_exact by assumption. reflexivity.
Qed.

(** A frame whose length field is zero is rejected. *)
Lemma readMessage_zero_length (b1 b2 b3 b4 : byte) (tl : list byte) :
  headerBodyLength [xce; b1; b2; b3; b4] = 0 ->
  readMessage (xce :: b1 :: b2 :: b3 :: b4 :: tl)
  = (Err (ErrorsNew "Response should not be 0 length"), tl).
Proof.
  intros HL. unfold readMessage. rewrite ReadAtLeast_header.
  change (Z_of_byte (byte_at [xce; b1; b2; b3; b4] 0) =? 206) with true.
  cbn [negb]. rewrite HL. reflexivity.
Qed.

(** A frame that does not start with the marker is rejected. *)
Lemma readMessage_wrong_marker (m b1 b2 b3 b4 : byte) (tl : list byte) :
  m <> xce ->
  readMessage (m :: b1 :: b2 :: b3 :: b4 :: tl)
  = (Err (ErrorsNew "Wrong reponse header"), tl).
Proof.
  intros Hm. unfold readMessage. rewrite ReadAtLeast_header.
  cbn [byte_at nth].
  destruct (Z.eqb_spec (Z_of_byte m) 206) as [E|E]; [|reflexivity].
  apply Z_of_byte_marker in E. contradiction.
Qed.

(** A stream that ends inside the header is rejected. *)
Lemma readMessage_short (r : list byte) :
  (length r < 5)%nat -> exists e, readMessage r = (Err e, r).
Proof.
  intros H. unfold readMessage.
  destruct (ReadAtLeast_short r PacketLengthBytes H) as [e ->]. now exists e.
Qed.

(** The length field is read from the first five bytes only. *)
Lemma headerBodyLength_prefix (m b1 b2 b3 b4 : byte) (tl : list byte) :
  headerBodyLength (m :: b1 :: b2 :: b3 :: b4 :: tl)
  = headerBodyLength [m; b1; b2; b3; b4].
Proof. unfold headerBodyLength, byte_at. cbn [nth]. reflexivity. Qed.

(** [readMessage] rejects every stream whose first byte is not the marker
    or whose length field is zero. *)
Lemma readMessage_rejects (r : list byte) :
  byte_at r 0 <> xce \/ headerBodyLength r = 0 ->
  exists e, (readMessage r).1 = Err e.
Proof.
  intros H.
  destruct (Nat.lt_ge_cases (length r) 5) as [Hs|Hl].
  { destruct (readMessage_short r Hs) as [e ->]. now exists e. }
  destruct r as [|m [|b1 [|b2 [|b3 [|b4 tl]]]]]; cbn in Hl; try lia.
  destruct (Byte.byte_eq_dec m xce) as [->|Hm].
  - destruct H as [H|H]; [exfalso; apply H; reflexivity|].
    rewrite headerBodyLength_prefix in H.
    rewrite (readMessage_zero_length b1 b2 b3 b4 tl H). cbn [fst]. now eexists.
  - rewrite readMessage_wrong_marker by assumption. now eexists.
Qed.

(** The frame built by [packIproto]: marker, length, header map, body. *)
Lemma packIproto_shape (KeyCode KeySync requestCode : byte) (requestID : Z)
    (body : list byte) :
  packIproto KeyCode KeySync requestCode requestID body
  = xce :: byte_of_Z (Z.shiftr (frameLength body) 24)
        :: byte_of_Z (Z.shiftr (frameLength body) 16)
        :: byte_of_Z (Z.shiftr (frameLength body) 8)
        :: byte_of_Z (frameLength body)
        :: frameContent KeyCode KeySync requestCode requestID body.
Proof. reflexivity. Qed.

Lemma frameContent_length (KeyCode KeySync requestCode : byte) (requestID : Z)
    (body : list byte) :
  Z.of_nat (length (frameContent KeyCode KeySync requestCode requestID body))
  = 9 + Z.of_nat (length body).
Proof. unfold frameContent. rewrite length_app. cbn [length]. lia. Qed.

(** The length written is the length of the content modulo [2^32]. *)
Lemma frameLength_value (body : list byte) :
  Z.of_nat (length body) < 2 ^ 62 ->
  frameLength body = (9 + Z.of_nat (length body)) mod 2 ^ 32.
Proof.
  intros H. unfold frameLength, wrap32. change (14 - 5) with 9.
  rewrite (wrap_int_small 9) by lia. rewrite wrap_int_small by lia. reflexivity.
Qed.

Lemma headerBodyLength_frame (body : list byte) :
  headerBodyLength
    [xce; byte_of_Z (Z.shiftr (frameLength body) 24);
     byte_of_Z (Z.shiftr (frameLength body) 16);
     byte_of_Z (Z.shiftr (frameLength body) 8);
     byte_of_Z (frameLength body)]
  = frameLength body.
Proof.
  rewrite headerBodyLength_value. apply big_endian_32.
  unfold frameLength, wrap32. apply Z.mod_pos_bound. reflexivity.
Qed.

(** C6 (as amended): for every request code, correlation ID and body whose
    length plus the nine bytes of the header map is below [2^32],
    [readMessage] on the bytes built by [packIproto] (followed by anything)
    succeeds and returns exactly the bytes after the 5-byte length prefix,
    the header map and the body, leaving the stream after the frame; the
    length field equals the length of those bytes; and [readMessage]
    rejects every input whose first byte is not 0xCE or whose length field
    is zero. *)
Theorem framing_roundtrip (KeyCode KeySync requestCode : byte) (requestID : Z)
    (body rest : list byte) :
  Z.of_nat (length body) + 9 < 2 ^ 32 ->
  let frame := packIproto KeyCode KeySync requestCode requestID body in
  readMessage (frame ++ rest) = (Ok (drop 5 frame), rest)
  /\ drop 5 frame = frameContent KeyCode KeySync requestCode requestID body
  /\ headerBodyLength (take 5 frame) = Z.of_nat (length (drop 5 frame))
  /\ forall r, byte_at r 0 <> xce \/ headerBodyLength r = 0 ->
               exists e, (readMessage r).1 = Err e.
Proof.
  intros Hlen frame.
  assert (frameLength body
          = Z.of_nat (length (frameContent KeyCode KeySync requestCode
                                requestID body))) as HL.
  { rewrite frameLength_value by lia. rewrite frameContent_length.
    apply Z.mod_small. lia. }
  subst frame. rewrite packIproto_shape.
  cbn [drop take app].
  split.
  { apply readMessage_frame.
    - now rewrite headerBodyLength_frame.
    - unfold frameContent. discriminate. }
  split; [reflexivity|].
  split; [now rewrite headerBodyLength_frame|].
  apply readMessage_rejects.
Qed.

Lemma framing_roundtrip_witness :
  readMessage (packIproto x00 x01 x40 7 [x91; x01] ++ [xff])
  = (Ok [x82; x00; x40; x01; xce; x00; x00; x00; x07; x91; x01], [xff]).
Proof.
  apply (framing_roundtrip x00 x01 x40 7 [x91; x01] [xff]). cbn. lia.
Defined.

(** C6 as stated fails for a body of [2^32 - 9] bytes: the content is
    [2^32] bytes long, the 32-bit length field wraps to zero, and
    [readMessage] rejects the frame that [packIproto] built. *)
Lemma framing_roundtrip_overflow :
  readMessage (packIproto x00 x01 x40 7 hugeBody)
  = (Err (ErrorsNew "Response should not be 0 length"),
     frameContent x00 x01 x40 7 hugeBody).
Proof.
  assert (Z.of_nat (length hugeBody) = 4294967287) as Hlen.
  { unfold hugeBody. rewrite length_replicate. apply Z2Nat.id. lia. }
  assert (frameLength hugeBody = 0) as HL.
  { rewrite frameLength_value by (rewrite Hlen; lia). rewrite Hlen. reflexivity. }
  rewrite packIproto_shape. apply readMessage_zero_length.
  rewrite headerBodyLength_frame. exact HL.
Qed.

(** ** [Connect] *)

Section ConnectProperties.

Variable AuthPack :
  string -> string -> list byte -> Z -> string -> list byte * option error.
Variable decodeResponse : list byte -> result Response.

Lemma authenticate_defaultSpace (conn conn' : Connection) (options : Options)
    (net : Net) (salt tcp : list byte) written err :
  authenticate AuthPack decodeResponse conn options net salt tcp
    = Some (conn', written, err) ->
  defaultSpace conn' = defaultSpace conn.
Proof.
  unfold authenticate. rewrite (surjective_pairing (nextID conn)).
  destruct (AuthPack _ _ _ _ _) as [authRaw perr].
  intros H.
  assert (conn' = (nextID conn).2) as ->.
  { destruct (write net authRaw); [now injection H|].
    destruct (readMessage tcp) as [[body|e|] rest]; try discriminate;
      [|now injection H].
    destruct (decodeResponse body) as [resp|e|]; try discriminate;
      [|now injection H].
    destruct (negb _); now injection H. }
  apply nextID_defaultSpace.
Qed.

(** The default space of a connection returned by [Connect] is the
    [DefaultSpace] of the options that were passed in. *)
Lemma Connect_defaultSpace (addr : string) (options : option Options)
    (net : Net) (res : Connected) (conn : Connection) :
  Connect AuthPack decodeResponse addr options net = Some res ->
  c_conn res = Some conn ->
  defaultSpace conn
  = DefaultSpace (match options with Some o => o | None => zeroOptions end).
Proof.
  unfold Connect.
  set (o := match options with Some o => o | None => zeroOptions end).
  set (opts := if QueryTimeout _ =? 0 then _ else _).
  assert (DefaultSpace opts = DefaultSpace o) as Hopts.
  { subst opts. destruct (ConnectTimeout o =? 0);
      destruct (QueryTimeout _ =? 0); reflexivity. }
  set (space := if String.eqb (DefaultSpace opts) "" then _ else _).
  destruct space as [e|o'] eqn:Hsp.
  { intros [= <-]. discriminate. }
  destruct (dial net _ _); [intros [= <-]; discriminate|].
  destruct (ReadAtLeast (inbound net) 128) as [[greeting tcp]|e|];
    [|intros [= <-]; discriminate|discriminate].
  destruct (negb (String.eqb (User o') "")).
  - destruct (authenticate _ _ _ _ _ _ _) as [[[conn1 written] err]|] eqn:HA;
      cbn; [|discriminate].
    apply authenticate_defaultSpace in HA.
    destruct err; intros [= <-]; [discriminate|].
    cbn. intros [= <-]. rewrite HA. cbn. exact Hopts.
  - cbn. intros [= <-]. cbn. intros [= <-]. cbn. exact Hopts.
Qed.

End ConnectProperties.

(** C9: the code departs from the claim.  With an empty [DefaultSpace] and
    an address [host/space] whose suffix is not empty, [Connect] stores the
    suffix in the caller's [Options] struct (through the [options]
    pointer) but fills [conn.defaultSpace] from its private copy [opts],
    taken before: every connection it returns has the empty default
    space, not the suffix. *)
Theorem Connect_address_space_lost
    (AuthPack : string -> string -> list byte -> Z -> string
                -> list byte * option error)
    (decodeResponse : list byte -> result Response)
    (addr host space : string) (rest : list string) (options : Options)
    (net : Net) (res : Connected) (conn : Connection) :
  DefaultSpace options = "" ->
  Split addr "/" = host :: space :: rest ->
  space <> "" ->
  Connect AuthPack decodeResponse addr (Some options) net = Some res ->
  c_conn res = Some conn ->
  defaultSpace conn = ""
  /\ defaultSpace conn <> space
  /\ DefaultSpace (c_options res) = space.
Proof.
  intros Hds Hsplit Hne HC Hconn.
  pose proof (Connect_defaultSpace AuthPack decodeResponse addr (Some options)
                net res conn HC Hconn) as Hd.
  cbn in Hd. rewrite Hds in Hd.
  split; [exact Hd|]. split; [rewrite Hd; congruence|].
  revert HC. unfold Connect.
  set (opts := if QueryTimeout _ =? 0 then _ else _).
  assert (DefaultSpace opts = "") as Hopts.
  { subst opts. destruct (ConnectTimeout options =? 0);
      destruct (QueryTimeout _ =? 0); cbn; exact Hds. }
  rewrite Hopts, Hsplit. cbn [String.eqb length Nat.ltb Nat.leb nth].
  destruct (String.eqb_spec space "") as [E|_]; [contradiction|].
  destruct (dial net _ _); [intros [= <-]; discriminate|].
  destruct (ReadAtLeast (inbound net) 128) as [[greeting tcp]|e|];
    [|intros [= <-]; discriminate|discriminate].
  destruct (negb (String.eqb _ "")).
  - destruct (authenticate _ _ _ _ _ _ _) as [[[conn1 written] err]|];
      cbn; [|discriminate].
    destruct err; intros [= <-]; reflexivity.
  - cbn. intros [= <-]. reflexivity.
Qed.

Lemma Connect_address_space_lost_witness :
  exists res conn,
    Connect failingAuthPack noDecode "localhost:3301/tester" (Some zeroOptions)
      greetingNet = Some res
    /\ c_conn res = Some conn
    /\ defaultSpace conn = ""
    /\ DefaultSpace (c_options res) = "tester".
Proof.
  eexists _, _. split; [reflexivity|]. split; [reflexivity|].
  pose proof (Connect_address_space_lost failingAuthPack noDecode
                "localhost:3301/tester" "localhost:3301" "tester" [] zeroOptions
                greetingNet _ _ eq_refl eq_refl ltac:(discriminate)
                eq_refl eq_refl) as (H1 & _ & H3).
  split; [exact H1 | exact H3].
Defined.

(** An address whose space suffix is empty is refused: [Connect] returns
    the error and no connection, and opens no socket. *)
Lemma Connect_empty_space
    (AuthPack : string -> string -> list byte -> Z -> string
                -> list byte * option error)
    (decodeResponse : list byte -> result Response)
    (addr host : string) (rest : list string) (options : option Options)
    (net : Net) :
  DefaultSpace (match options with Some o => o | None => zeroOptions end) = "" ->
  Split addr "/" = host :: "" :: rest ->
  exists res,
    Connect AuthPack decodeResponse addr options net = Some res
    /\ c_conn res = None
    /\ c_err res = Some (FmtErrorf "Wrong space: ")
    /\ c_written res = [] /\ c_worker_started res = false.
Proof.
  intros Hds Hsplit. unfold Connect.
  set (o := match options with Some o => o | None => zeroOptions end) in *.
  set (opts := if QueryTimeout _ =? 0 then _ else _).
  assert (DefaultSpace opts = "") as Hopts.
  { subst opts. destruct (ConnectTimeout o =? 0);
      destruct (QueryTimeout _ =? 0); cbn; exact Hds. }
  rewrite Hopts, Hsplit. cbn. eexists. repeat split.
Qed.

(** The authentication exchange does not look at the error of the
    packer. *)
Lemma authenticate_without_error
    (AuthPack : string -> string -> list byte -> Z -> string
                -> list byte * option error)
    (decodeResponse : list byte -> result Response)
    (conn : Connection) (options : Options) (net : Net)
    (salt tcp : list byte) :
  authenticate AuthPack decodeResponse conn options net salt tcp
  = authenticate (without_error AuthPack) decodeResponse conn options net
      salt tcp.
Proof.
  unfold authenticate, without_error.
  destruct (nextID conn) as [id conn1].
  destruct (AuthPack _ _ _ _ _) as [authRaw perr]. reflexivity.
Qed.

(** C10: an error returned by the authentication packer never reaches the
    caller of [Connect]: the call behaves exactly as with a packer that
    returns the same bytes and no error, because [err] is overwritten by
    the result of the socket write.  With a packer that fails and returns
    no bytes, [Connect] writes the empty byte string, reads the reply and
    returns a connection. *)
Theorem Connect_discards_auth_pack_error
    (AuthPack : string -> string -> list byte -> Z -> string
                -> list byte * option error)
    (decodeResponse : list byte -> result Response)
    (addr : string) (options : option Options) (net : Net) :
  Connect AuthPack decodeResponse addr options net
  = Connect (without_error AuthPack) decodeResponse addr options net
  /\ exists conn,
       Connect failingAuthPack acceptDecode "localhost:3301" (Some adminOptions)
         authNet
       = Some {| c_conn := Some conn; c_err := None;
                 c_options := adminOptions; c_written := [[]];
                 c_socket_closed := false; c_worker_started := true |}.
Proof.
  split.
  - unfold Connect.
    destruct (if String.eqb _ "" then _ else _) as [e|o']; [reflexivity|].
    destruct (dial net _ _); [reflexivity|].
    destruct (ReadAtLeast (inbound net) 128) as [[greeting tcp]|e|];
      [|reflexivity..].
    destruct (negb (String.eqb (User o') "")); [|reflexivity].
    now rewrite authenticate_without_error.
  - eexists. vm_compute. reflexivity.
Qed.

(** ** Shutdown *)

Lemma newRequest_lifecycle (r r' : request) (conn conn' : Connection)
    (h h' : gmap nat chan) (e : option error) :
  newRequest r conn h = Some (e, r', conn', h') ->
  lifecycle conn' = lifecycle conn.
Proof.
  rewrite newRequest_unfold. intros H.
  destruct (after_eviction _ _ h) as [[conn2 h2]|] eqn:Ev; cbn in H;
    [|discriminate].
  pose proof (after_eviction_conn _ _ _ _ _ Ev) as Hc.
  assert (lifecycle conn2 = lifecycle conn) as H2.
  { rewrite Hc, nextID_fields. reflexivity. }
  destruct (Pack (query r) _ _).2; cbn in H.
  - destruct (chan_send _ _ h2); cbn in H; [|discriminate].
    injection H as _ _ <- _. exact H2.
  - injection H as _ _ <- _. exact H2.
Qed.

Lemma handleReply_lifecycle (res : Response) (conn conn' : Connection)
    (h h' : gmap nat chan) :
  handleReply res conn h = Some (conn', h') ->
  lifecycle conn' = lifecycle conn.
Proof. intros H. now rewrite (handleReply_conn _ _ _ _ _ H). Qed.

(** A router iteration closes nothing. *)
Lemma router_iter_lifecycle (c : select_case) (w : write_case) (p p' : pipeline) :
  router_iter c w p = Continue p' \/ router_iter c w p = Break p' ->
  lifecycle (p_conn p') = lifecycle (p_conn p).
Proof.
  unfold router_iter. intros H. destruct c.
  - destruct (router_requestChan p) as [[|r queue]|];
      try (destruct H; discriminate).
    destruct (newRequest r _ (p_chans p)) as [[[[e r'] conn'] h']|] eqn:E;
      [|destruct H; discriminate].
    apply newRequest_lifecycle in E. cbn in E.
    destruct e as [e|].
    + destruct H as [H|H]; [|discriminate]. injection H as <-. exact E.
    + destruct w.
      * destruct (Z.of_nat (length (writeChan p)) <? writeChanCap);
          destruct H as [H|H]; try discriminate. injection H as <-. exact E.
      * destruct (0 <? exit conn')%nat; destruct H as [H|H]; try discriminate.
        injection H as <-. exact E.
  - destruct (0 <? exit (p_conn p))%nat; destruct H as [H|H]; try discriminate.
    now injection H as <-.
  - destruct (readChan p) as [|res queue]; [destruct H; discriminate|].
    destruct (handleReply res (p_conn p) (p_chans p)) as [[conn' h']|] eqn:E;
      [|destruct H; discriminate].
    destruct H as [H|H]; [|discriminate]. injection H as <-.
    now apply handleReply_lifecycle in E.
  - destruct (router_requestChan p) as [[|r queue]|];
      destruct H as [H|H]; try discriminate. now injection H as <-.
  - destruct (readChan p) as [|res queue];
      destruct H as [H|H]; try discriminate. now injection H as <-.
Qed.

(** [stop] fires the once at most once: it closes [exit] and the socket
    when the once has not fired, and does nothing afterwards. *)
Lemma stop_fields (conn : Connection) :
  closeOnce (stop conn) = true
  /\ exit (stop conn) = (if closeOnce conn then exit conn else S (exit conn))
  /\ tcpConn (stop conn) = (if closeOnce conn then tcpConn conn else S (tcpConn conn))
  /\ closed (stop conn) = closed conn
  /\ requests (stop conn) = requests conn
  /\ requestChan (stop conn) = requestChan conn.
Proof.
  unfold stop. destruct (closeOnce conn) eqn:E; cbn; rewrite ?E; repeat split.
Qed.

Lemma stop_idempotent (conn : Connection) : stop (stop conn) = stop conn.
Proof. unfold stop. destruct (closeOnce conn) eqn:E; cbn; now rewrite ?E. Qed.

Lemma sys_inv_init (conn : Connection) (h : gmap nat chan) (n : nat) :
  open_connection conn -> sys_inv (init_system conn h n).
Proof.
  intros (Ho & He & Hc & Ht). unfold sys_inv. cbn.
  rewrite Ho, He, Hc, Ht. repeat split; try done.
  - intros g. destruct g; discriminate.
  - intros i st Hl. apply lookup_replicate in Hl as [-> _]. exact I.
Qed.

(** When the wait group is at zero every stage goroutine is done. *)
Lemma wait_group_zero (s : system) :
  sys_inv s -> sys_wg s = 0%nat ->
  sys_router s = StageDone /\ sys_writer s = StageDone
  /\ sys_reader s = StageDone.
Proof.
  intros (_ & _ & Hwg & _) H0. rewrite H0 in Hwg.
  destruct (sys_router s), (sys_writer s), (sys_reader s);
    cbn in Hwg; try lia; auto.
Qed.

(** A step that changes only the pipeline keeps the invariant when it
    closes nothing and leaves an emptied registry empty. *)
Lemma sys_inv_pipe (s : system) (p' : pipeline) :
  sys_inv s ->
  lifecycle (p_conn p') = lifecycle (p_conn (sys_pipe s)) ->
  (sys_worker s = WorkerFinished -> requests (p_conn p') = ∅) ->
  sys_inv (sys_set_pipe s p').
Proof.
  intros (I1 & I2 & I3 & I4 & I5 & I6) HL Hreg.
  unfold lifecycle in HL. injection HL as L1 L2 L3 L4.
  unfold sys_inv. cbn. rewrite L1, L2, L3, L4.
  split; [exact I1|]. split; [exact I2|]. split; [exact I3|].
  split. { intros g Hg. apply (I4 g). now destruct g. }
  split; [|exact I6].
  destruct (sys_worker s); [exact I5|].
  destruct I5 as (? & ? & ?). split; [assumption|]. split; [assumption|].
  now apply Hreg.
Qed.

(** Moving a stage goroutine between program points that count the same
    in the wait group and have not passed [conn.stop()]. *)
Lemma sys_inv_stage (s : system) (g : stage) (st : stage_state) :
  sys_inv s ->
  pending_stage st = pending_stage (stage_of g s) ->
  has_stopped st = false ->
  sys_inv (set_stage g st s).
Proof.
  intros (I1 & I2 & I3 & I4 & I5 & I6) Hp Hs.
  unfold sys_inv. cbn.
  split; [exact I1|]. split; [exact I2|].
  split. { rewrite I3. destruct g; cbn in Hp; rewrite Hp; reflexivity. }
  split.
  { intros g'. pose proof (I4 g') as H4.
    destruct g, g'; cbn in *; try exact H4; rewrite Hs; discriminate. }
  split; [|exact I6].
  destruct (sys_worker s); [exact I5|].
  destruct I5 as (? & Hwg & ?). split; [assumption|]. split; [|assumption].
  exact Hwg.
Qed.

Lemma sys_inv_registry (s : system) :
  sys_inv s -> sys_worker s = WorkerFinished ->
  requests (p_conn (sys_pipe s)) = ∅.
Proof. intros (_ & _ & _ & _ & I5 & _) Hw. rewrite Hw in I5. apply I5. Qed.

(** Every step of every goroutine keeps the invariant. *)
Lemma sys_inv_step (s s' : system) : sys_inv s -> sys_step s s' -> sys_inv s'.
Proof.
  intros Hinv Hstep.
  pose proof (wait_group_zero s Hinv) as Hzero.
  pose proof (sys_inv_registry s Hinv) as Hreg.
  destruct Hstep as
    [s c w p' Hrun Hit | s c w p' Hrun Hit | s r queue Hrun Hq
    | s res Hrun Hroom | s Hrun | s Hrun | s g Hst | s g Hst
    | s r Hroom | s i Hc | s i Hc Hclosed
    | s entries conn' h' Hw Hwg Hperm Htd].
  - (* router iteration *)
    apply sys_inv_pipe; [exact Hinv| |].
    + apply (router_iter_lifecycle c w). now left.
    + intros Hfin. destruct Hinv as (_ & _ & _ & _ & I5 & _).
      rewrite Hfin in I5. destruct I5 as (_ & Hwg & _).
      destruct (Hzero Hwg) as (Hr & _). congruence.
  - (* router leaves the loop *)
    apply sys_inv_stage; [|cbn; now rewrite Hrun|reflexivity].
    apply sys_inv_pipe; [exact Hinv| |].
    + apply (router_iter_lifecycle c w). now right.
    + intros Hfin. destruct Hinv as (_ & _ & _ & _ & I5 & _).
      rewrite Hfin in I5. destruct I5 as (_ & Hwg & _).
      destruct (Hzero Hwg) as (Hr & _). congruence.
  - apply sys_inv_pipe; [exact Hinv|reflexivity|exact Hreg].
  - apply sys_inv_pipe; [exact Hinv|reflexivity|exact Hreg].
  - apply sys_inv_stage; [exact Hinv|cbn; now rewrite Hrun|reflexivity].
  - apply sys_inv_stage; [exact Hinv|cbn; now rewrite Hrun|reflexivity].
  - (* conn.stop() of a stage *)
    destruct Hinv as (I1 & I2 & I3 & I4 & I5 & I6).
    destruct (stop_fields (p_conn (sys_pipe s))) as (S1 & S2 & S3 & S4 & S5 & S6).
    unfold sys_inv. cbn. rewrite S1, S2, S3, S4, S5.
    split. { destruct (closeOnce _); congruence. }
    split. { destruct (closeOnce (p_conn (sys_pipe s))); [exact I2|].
             now rewrite I2. }
    split. { rewrite I3. destruct g; cbn in Hst; rewrite Hst; reflexivity. }
    split; [reflexivity|].
    split.
    { destruct (sys_worker s); [exact I5|].
      destruct I5 as (? & Hwg & ?). destruct (Hzero Hwg) as (Hr & Hwr & Hrd).
      destruct g; cbn in Hst; congruence. }
    intros i st Hl. specialize (I6 i st Hl). destruct st; tauto.
  - (* wg.Done() of a stage *)
    destruct Hinv as (I1 & I2 & I3 & I4 & I5 & I6).
    unfold sys_inv. cbn.
    split; [exact I1|]. split; [exact I2|].
    split. { rewrite I3. destruct g; cbn in Hst; rewrite Hst; cbn; lia. }
    split.
    { intros g'. pose proof (I4 g') as H4. pose proof (I4 g) as H4g.
      rewrite Hst in H4g.
      destruct g, g'; cbn in *; auto. }
    split; [|exact I6].
    destruct (sys_worker s); [exact I5|].
    destruct I5 as (? & Hwg & ?). destruct (Hzero Hwg) as (Hr & Hwr & Hrd).
    destruct g; cbn in Hst; congruence.
  - apply sys_inv_pipe; [exact Hinv|reflexivity|exact Hreg].
  - (* Close: conn.stop() *)
    destruct Hinv as (I1 & I2 & I3 & I4 & I5 & I6).
    destruct (stop_fields (p_conn (sys_pipe s))) as (S1 & S2 & S3 & S4 & S5 & S6).
    unfold sys_inv. cbn. rewrite S1, S2, S3, S4, S5.
    split. { destruct (closeOnce _); congruence. }
    split. { destruct (closeOnce (p_conn (sys_pipe s))); [exact I2|].
             now rewrite I2. }
    split; [exact I3|]. split; [reflexivity|]. split; [exact I5|].
    intros j st Hl.
    destruct (decide (i = j)) as [->|Hne].
    + rewrite list_lookup_insert_eq in Hl by (eapply lookup_lt_Some; eauto).
      now injection Hl as <-.
    + rewrite list_lookup_insert_ne in Hl by assumption.
      specialize (I6 j st Hl). destruct st; tauto.
  - (* Close returns *)
    destruct Hinv as (I1 & I2 & I3 & I4 & I5 & I6).
    unfold sys_inv. cbn.
    split; [exact I1|]. split; [exact I2|]. split; [exact I3|].
    split; [exact I4|]. split; [exact I5|].
    intros j st Hl.
    destruct (decide (i = j)) as [->|Hne].
    + rewrite list_lookup_insert_eq in Hl by (eapply lookup_lt_Some; eauto).
      injection Hl as <-. split; [exact (I6 j _ Hc)|].
      destruct (sys_worker s); [lia|apply I5].
    + rewrite list_lookup_insert_ne in Hl by assumption. exact (I6 j st Hl).
  - (* the worker's clean-up *)
    destruct Hinv as (I1 & I2 & I3 & I4 & I5 & I6).
    apply worker_teardown_inv in Htd
      as (conn1 & h1 & HF & _ & Hr & _ & Hcl & Hco & Hex & Htc).
    pose proof (fail_pending_empties _ _ _ _ _ Hperm HF) as Hempty.
    rewrite Hw in I5.
    unfold sys_inv. cbn. rewrite Hco, Hex, Htc, Hcl, Hr, I5.
    split; [exact I1|]. split; [exact I2|]. split; [exact I3|].
    split; [exact I4|]. split; [auto|].
    intros j st Hl. specialize (I6 j st Hl). rewrite I5 in I6.
    destruct st; [exact I|exact I6|]. destruct I6 as [_ ?]. discriminate.
Qed.

Lemma sys_inv_reachable (s0 s : system) :
  sys_inv s0 -> rtc sys_step s0 s -> sys_inv s.
Proof.
  intros H0 Hr. induction Hr as [|s1 s2 s3 Hstep _ IH]; [exact H0|].
  apply IH. now apply (sys_inv_step s1).
Qed.

(** A complete run: one caller closes a new connection, the stages stop,
    the worker cleans up and [Close] returns. *)
Lemma closedSystem_reachable :
  rtc sys_step (init_system (emptyConnection "localhost:3301") ∅ 1) closedSystem.
Proof.
  eapply rtc_l; [apply (step_close_stop _ 0%nat); reflexivity|]. cbn.
  eapply rtc_l; [eapply (step_router_break _ CaseStop CaseWrite); reflexivity|]. cbn.
  eapply rtc_l; [apply step_writer_return; reflexivity|]. cbn.
  eapply rtc_l; [apply step_reader_return; reflexivity|]. cbn.
  eapply rtc_l; [apply (step_stage_stop _ Router); reflexivity|]. cbn.
  eapply rtc_l; [apply (step_stage_stop _ Writer); reflexivity|]. cbn.
  eapply rtc_l; [apply (step_stage_stop _ Reader); reflexivity|]. cbn.
  eapply rtc_l; [apply (step_stage_done _ Router); reflexivity|]. cbn.
  eapply rtc_l; [apply (step_stage_done _ Writer); reflexivity|]. cbn.
  eapply rtc_l; [apply (step_stage_done _ Reader); reflexivity|]. cbn.
  eapply rtc_l; [eapply (step_worker_teardown _ []); reflexivity|]. cbn.
  eapply rtc_l; [apply (step_close_return _ 0%nat); [reflexivity|cbn; lia]|]. cbn.
  apply rtc_refl.
Qed.

Lemma fetch_input_app (a b : list request) (h : gmap nat chan) :
  fetch_input (a ++ b) h = h1 ← fetch_input a h; fetch_input b h1.
Proof.
  revert h. induction a as [|req a IH]; intros h; cbn; [reflexivity|].
  destruct (fail_request req h) as [h1|]; cbn; [apply IH|reflexivity].
Qed.

(** Both clean-up loops run the same body over their requests. *)
Lemma fail_pending_fetch (entries : list (Z * request)) (conn : Connection)
    (h : gmap nat chan) :
  fail_pending entries conn h
  = h' ← fetch_input entries.*2 h;
    Some (set_requests conn
            (foldl (fun m k => delete k m) (requests conn) entries.*1), h').
Proof.
  revert conn h. induction entries as [|[k req] entries IH]; intros conn h; cbn.
  - now destruct conn.
  - destruct (fail_request req h) as [h1|]; cbn; [|reflexivity].
    rewrite IH. reflexivity.
Qed.

(** The clean-up body completes on requests with pairwise distinct open
    channels: each channel gets the connection-closed response appended
    and is closed, every other channel is untouched. *)
Lemma fetch_input_total (queue : list request) (h : gmap nat chan) :
  NoDup (replyChan <$> queue) ->
  (forall req, req ∈ queue -> exists vs, chan_open h (replyChan req) vs) ->
  exists h',
    fetch_input queue h = Some h'
    /\ (forall req vs, req ∈ queue -> chan_open h (replyChan req) vs ->
          chan_done h' (replyChan req)
            (vs ++ [ResponseError ConnectionClosedError]))
    /\ (forall c, c ∉ (replyChan <$> queue) -> h' !! c = h !! c).
Proof.
  revert h. induction queue as [|req queue IH]; intros h Hnd Hopen.
  - exists h. split; [reflexivity|]. split; [|reflexivity].
    intros req vs Hin. inversion Hin.
  - rewrite fmap_cons in Hnd. apply NoDup_cons in Hnd as [Hhead Hnd].
    destruct (Hopen req ltac:(left)) as [vs0 Ho].
    pose proof (fail_request_open req h vs0 Ho) as Hf.
    set (h1 := <[replyChan req :=
                   {| ch_sent := vs0 ++ [ResponseError ConnectionClosedError];
                      ch_closed := true |}]> h) in *.
    assert (forall r', r' ∈ queue -> replyChan r' <> replyChan req) as Hne.
    { intros r' Hin E. apply Hhead. rewrite <- E.
      apply list_elem_of_fmap. now exists r'. }
    destruct (IH h1 Hnd) as (h' & Hrun & Hdone & Hother).
    { intros r' Hin. destruct (Hopen r' ltac:(now right)) as [vs Hv].
      exists vs. unfold chan_open, h1. rewrite lookup_insert_ne; [exact Hv|].
      intros E. now apply (Hne r' Hin). }
    exists h'. split; [cbn; rewrite Hf; exact Hrun|]. split.
    + intros r' vs Hin Hv. apply elem_of_cons in Hin as [->|Hin].
      * unfold chan_done. rewrite (Hother _ Hhead).
        unfold chan_open in Ho, Hv. rewrite Ho in Hv. injection Hv as <-.
        unfold h1. apply lookup_insert_eq.
      * apply Hdone; [exact Hin|]. unfold chan_open, h1.
        rewrite lookup_insert_ne; [exact Hv|].
        intros E. now apply (Hne r' Hin).
    + intros c Hc. rewrite fmap_cons in Hc. apply not_elem_of_cons in Hc as [Hc1 Hc2].
      rewrite (Hother c Hc2). unfold h1. now rewrite lookup_insert_ne.
Qed.

Lemma fetch_input_inv (queue : list request) (h h' : gmap nat chan) :
  fetch_input queue h = Some h' ->
  NoDup (replyChan <$> queue)
  /\ forall req, req ∈ queue -> exists vs, chan_open h (replyChan req) vs.
Proof.
  revert h. induction queue as [|req queue IH]; intros h H; cbn in H.
  - split; [constructor|]. intros req Hin. inversion Hin.
  - destruct (fail_request req h) as [h1|] eqn:E; cbn in H; [|discriminate].
    destruct (fail_request_inv req h h1 E) as (vs0 & Ho & Hh1).
    destruct (IH h1 H) as (Hnd & Hopen).
    assert (forall r', r' ∈ queue -> replyChan r' <> replyChan req) as Hne.
    { intros r' Hin E'. destruct (Hopen r' Hin) as [vs Hv].
      unfold chan_open in Hv. rewrite E', Hh1, lookup_insert_eq in Hv.
      discriminate. }
    split.
    + rewrite fmap_cons. apply NoDup_cons. split; [|exact Hnd].
      intros Hin. apply list_elem_of_fmap in Hin as (r' & E' & Hin).
      now apply (Hne r' Hin).
    + intros r' Hin. apply elem_of_cons in Hin as [->|Hin]; [now exists vs0|].
      destruct (Hopen r' Hin) as [vs Hv]. exists vs.
      unfold chan_open in *. rewrite Hh1, lookup_insert_ne in Hv; [exact Hv|].
      intros E'. now apply (Hne r' Hin).
Qed.

(** The clean-up fails what is pending: when it completes, every request
    that was in the registry or in the submission queue had an open reply
    channel, and that channel now holds one more value, the
    connection-closed response, and is closed. *)
Lemma worker_teardown_failed (entries : list (Z * request))
    (conn conn' : Connection) (h h' : gmap nat chan) :
  entries ≡ₚ map_to_list (requests conn) ->
  worker_teardown entries conn h = Some (conn', h') ->
  forall req,
    req ∈ (map_to_list (requests conn)).*2 \/ req ∈ requestChan conn ->
    exists vs,
      chan_open h (replyChan req) vs
      /\ chan_done h' (replyChan req)
           (vs ++ [ResponseError ConnectionClosedError]).
Proof.
  intros Hperm HT req Hreq.
  apply worker_teardown_inv in HT as (conn1 & h1 & HF & HI & _).
  rewrite fail_pending_fetch in HF.
  destruct (fetch_input entries.*2 h) as [h1'|] eqn:E1; cbn in HF; [|discriminate].
  injection HF as _ <-.
  assert (fetch_input (entries.*2 ++ requestChan conn) h = Some h') as Hall.
  { rewrite fetch_input_app, E1. exact HI. }
  destruct (fetch_input_inv _ _ _ Hall) as [Hnd Hopen].
  destruct (fetch_input_total _ h Hnd Hopen) as (h'' & Hrun & Hdone & _).
  rewrite Hall in Hrun. injection Hrun as <-.
  assert (req ∈ entries.*2 ++ requestChan conn) as Hin.
  { apply elem_of_app. destruct Hreq as [Hreg|Hq]; [left|now right].
    now rewrite Hperm. }
  destruct (Hopen req Hin) as [vs Hv]. exists vs. split; [exact Hv|].
  now apply Hdone.
Qed.

(** The worker finishes once: only its clean-up step takes it from
    waiting to finished, and no step takes it back. *)
Lemma sys_step_worker (s s' : system) :
  sys_step s s' ->
  match sys_worker s, sys_worker s' with
  | WorkerFinished, WorkerFinished => True
  | WorkerFinished, WorkerWaiting => False
  | WorkerWaiting, WorkerWaiting => True
  | WorkerWaiting, WorkerFinished =>
      sys_wg s = 0%nat
      /\ exists entries conn',
           entries ≡ₚ map_to_list (requests (p_conn (sys_pipe s)))
           /\ worker_teardown entries (p_conn (sys_pipe s)) (p_chans (sys_pipe s))
              = Some (conn', p_chans (sys_pipe s'))
  end.
Proof.
  intros Hstep.
  destruct Hstep as
    [s c w p' Hrun Hit | s c w p' Hrun Hit | s r queue Hrun Hq
    | s res Hrun Hroom | s Hrun | s Hrun | s g Hst | s g Hst
    | s r Hroom | s i Hc | s i Hc Hclosed
    | s entries conn' h' Hw Hwg Hperm Htd]; cbn;
    try (destruct (sys_worker s); exact I).
  rewrite Hw. split; [exact Hwg|]. now exists entries, conn'.
Qed.

(** After the clean-up no goroutine touches the reply channels: the
    stages are done and the worker has finished. *)
Lemma finished_chans_stable (s s' : system) :
  sys_inv s -> sys_worker s = WorkerFinished -> sys_step s s' ->
  p_chans (sys_pipe s') = p_chans (sys_pipe s).
Proof.
  intros Hinv Hfin Hstep.
  destruct (wait_group_zero s Hinv) as (Hr & Hwr & Hrd).
  { destruct Hinv as (_ & _ & _ & _ & I5 & _). rewrite Hfin in I5. apply I5. }
  destruct Hstep as
    [s c w p' Hrun Hit | s c w p' Hrun Hit | s r queue Hrun Hq
    | s res Hrun Hroom | s Hrun | s Hrun | s g Hst | s g Hst
    | s r Hroom | s i Hc | s i Hc Hclosed
    | s entries conn' h' Hw Hwg Hperm Htd]; cbn; try reflexivity;
    congruence.
Qed.

Lemma finished_chans_reachable (s s' : system) :
  sys_inv s -> sys_worker s = WorkerFinished -> rtc sys_step s s' ->
  p_chans (sys_pipe s') = p_chans (sys_pipe s).
Proof.
  intros Hinv Hfin Hr. induction Hr as [|s1 s2 s3 Hstep _ IH]; [reflexivity|].
  rewrite IH.
  - now apply finished_chans_stable.
  - now apply (sys_inv_step s1).
  - pose proof (sys_step_worker _ _ Hstep) as Hw. rewrite Hfin in Hw.
    destruct (sys_worker s2); [contradiction|reflexivity].
Qed.

(** A run that ends with the worker finished passed through the
    clean-up step. *)
Lemma finished_history (s0 s : system) :
  sys_worker s0 = WorkerWaiting ->
  rtc sys_step s0 s ->
  sys_worker s = WorkerFinished ->
  exists s1 s2,
    rtc sys_step s0 s1 /\ sys_step s1 s2 /\ rtc sys_step s2 s
    /\ sys_worker s1 = WorkerWaiting /\ sys_worker s2 = WorkerFinished.
Proof.
  intros H0. revert s.
  apply (rtc_ind_r (fun s =>
           sys_worker s = WorkerFinished ->
           exists s1 s2,
             rtc sys_step s0 s1 /\ sys_step s1 s2 /\ rtc sys_step s2 s
             /\ sys_worker s1 = WorkerWaiting
             /\ sys_worker s2 = WorkerFinished)).
  - congruence.
  - intros s s' Hr Hstep IH Hfin. destruct (sys_worker s) eqn:Hw.
    + exists s, s'. repeat split; [exact Hr|exact Hstep|apply rtc_refl|
        exact Hw|exact Hfin].
    + destruct (IH eq_refl) as (s1 & s2 & H1 & H12 & H2 & Hw1 & Hw2).
      exists s1, s2. repeat split; try assumption.
      eapply rtc_r; eassumption.
Qed.

(** C8: in every state that any interleaving of the stage goroutines, the
    worker and any number of [Close] callers can reach from a new
    connection, [exit] and the socket have been closed at most once and
    [closed] at most once; once some caller has entered [Close] they have
    been closed exactly once, however many callers followed; and a caller
    whose [Close] has returned finds the teardown complete: the three
    stages have stopped and left the wait group, the registry is empty and
    [closed] is closed, and the run passed through the worker's clean-up,
    which began when the wait group was at zero and failed every request
    then pending: each request that was in the registry or in the
    submission queue had an open reply channel, which now holds exactly
    one more value, the connection-closed response, and is closed. *)
Theorem Close_idempotent (conn : Connection) (h : gmap nat chan) (n : nat)
    (s : system) :
  open_connection conn ->
  rtc sys_step (init_system conn h n) s ->
  (exit (p_conn (sys_pipe s)) <= 1 /\ tcpConn (p_conn (sys_pipe s)) <= 1
   /\ closed (p_conn (sys_pipe s)) <= 1)%nat
  /\ (forall i st, sys_callers s !! i = Some st -> st <> CloseNotCalled ->
        exit (p_conn (sys_pipe s)) = 1%nat
        /\ tcpConn (p_conn (sys_pipe s)) = 1%nat)
  /\ (forall i, sys_callers s !! i = Some CloseReturned ->
        closed (p_conn (sys_pipe s)) = 1%nat
        /\ sys_worker s = WorkerFinished
        /\ sys_router s = StageDone /\ sys_writer s = StageDone
        /\ sys_reader s = StageDone
        /\ sys_wg s = 0%nat
        /\ requests (p_conn (sys_pipe s)) = ∅
        /\ exists s1 s2,
             rtc sys_step (init_system conn h n) s1
             /\ sys_step s1 s2 /\ rtc sys_step s2 s
             /\ sys_worker s1 = WorkerWaiting
             /\ sys_worker s2 = WorkerFinished
             /\ sys_wg s1 = 0%nat
             /\ forall req,
                  req ∈ (map_to_list (requests (p_conn (sys_pipe s1)))).*2
                  \/ req ∈ requestChan (p_conn (sys_pipe s1)) ->
                  exists vs,
                    chan_open (p_chans (sys_pipe s1)) (replyChan req) vs
                    /\ chan_done (p_chans (sys_pipe s)) (replyChan req)
                         (vs ++ [ResponseError ConnectionClosedError])).
Proof.
  intros Hopen Hreach.
  pose proof (sys_inv_reachable _ s (sys_inv_init conn h n Hopen) Hreach) as Hinv.
  pose proof (wait_group_zero s Hinv) as Hzero.
  destruct Hinv as (I1 & I2 & I3 & I4 & I5 & I6).
  split.
  { rewrite <- I1, I2. destruct (closeOnce _); destruct (sys_worker s);
      [| destruct I5 as (-> & _) | | destruct I5 as (-> & _)];
      try rewrite I5; lia. }
  split.
  { intros i st Hl Hne. specialize (I6 i st Hl). rewrite <- I1, I2.
    destruct st; [congruence| |destruct I6 as [I6 _]]; rewrite I6; auto. }
  intros i Hl. destruct (I6 i _ Hl) as [_ Hcl].
  destruct (sys_worker s) eqn:Hfin; [lia|].
  destruct I5 as (_ & Hwg & Hreg). destruct (Hzero Hwg) as (? & ? & ?).
  do 7 (split; [first [assumption | reflexivity]|]).
  destruct (finished_history (init_system conn h n) s eq_refl Hreach Hfin)
    as (s1 & s2 & Hr1 & Hs12 & Hr2 & Hw1 & Hw2).
  pose proof (sys_step_worker _ _ Hs12) as Htd. rewrite Hw1, Hw2 in Htd.
  destruct Htd as (Hwg1 & entries & conn' & Hperm & HT).
  exists s1, s2. do 6 (split; [assumption|]).
  intros req Hreq.
  destruct (worker_teardown_failed _ _ _ _ _ Hperm HT req Hreq) as (vs & Ho & Hd).
  exists vs. split; [exact Ho|].
  assert (sys_inv s2) as Hinv2.
  { apply (sys_inv_reachable (init_system conn h n)); [now apply sys_inv_init|].
    eapply rtc_r; eassumption. }
  now rewrite (finished_chans_reachable s2 s Hinv2 Hw2 Hr2).
Qed.

(** A complete run with a request waiting in the submission queue. *)
Lemma drainedSystem_reachable :
  rtc sys_step
    (init_system (set_requestChan (emptyConnection "localhost:3301") [plainRequest])
       twoChans 1)
    drainedSystem.
Proof.
  eapply rtc_l; [apply (step_close_stop _ 0%nat); reflexivity|]. cbn.
  eapply rtc_l; [eapply (step_router_break _ CaseStop CaseWrite); reflexivity|]. cbn.
  eapply rtc_l; [apply step_writer_return; reflexivity|]. cbn.
  eapply rtc_l; [apply step_reader_return; reflexivity|]. cbn.
  eapply rtc_l; [apply (step_stage_stop _ Router); reflexivity|]. cbn.
  eapply rtc_l; [apply (step_stage_stop _ Writer); reflexivity|]. cbn.
  eapply rtc_l; [apply (step_stage_stop _ Reader); reflexivity|]. cbn.
  eapply rtc_l; [apply (step_stage_done _ Router); reflexivity|]. cbn.
  eapply rtc_l; [apply (step_stage_done _ Writer); reflexivity|]. cbn.
  eapply rtc_l; [apply (step_stage_done _ Reader); reflexivity|]. cbn.
  eapply rtc_l; [eapply (step_worker_teardown _ []); reflexivity|]. cbn.
  eapply rtc_l; [apply (step_close_return _ 0%nat); [reflexivity|cbn; lia]|]. cbn.
  apply rtc_refl.
Qed.

Lemma Close_idempotent_witness :
  exit (p_conn (sys_pipe drainedSystem)) = 1%nat
  /\ requests (p_conn (sys_pipe drainedSystem)) = ∅
  /\ exists s1,
       sys_wg s1 = 0%nat
       /\ forall req,
            req ∈ requestChan (p_conn (sys_pipe s1)) ->
            exists vs,
              chan_done (p_chans (sys_pipe drainedSystem)) (replyChan req)
                (vs ++ [ResponseError ConnectionClosedError]).
Proof.
  destruct (Close_idempotent
              (set_requestChan (emptyConnection "localhost:3301") [plainRequest])
              twoChans 1 drainedSystem)
    as (_ & Hstop & Hret).
  - repeat split.
  - exact drainedSystem_reachable.
  - split; [apply (Hstop 0%nat CloseReturned); [reflexivity|discriminate]|].
    destruct (Hret 0%nat eq_refl)
      as (_ & _ & _ & _ & _ & _ & Hreg & s1 & s2 & _ & _ & _ & _ & _ & Hwg & Hall).
    split; [exact Hreg|].
    exists s1. split; [exact Hwg|].
    intros req Hin. destruct (Hall req (or_intror Hin)) as (vs & _ & Hd).
    now exists vs.
Defined.

(** * Further properties of the code *)

(** ** [nextID] *)

(** X1: whatever the counter holds, fewer than [2^32] consecutive calls of
    [nextID] return pairwise distinct IDs, each between 1 and
    [MaxUint32]: an ID is reused only after [2^32 - 1] allocations. *)
Theorem nextID_distinct_from_any_state (n : nat) (conn : Connection) :
  0 <= requestID conn <= MaxUint32 ->
  Z.of_nat n < 2 ^ 32 ->
  NoDup (nextIDs n conn).1
  /\ forall id, id ∈ (nextIDs n conn).1 -> 1 <= id <= MaxUint32.
Proof.
  intros Hr Hn. split; [now apply nextIDs_NoDup|].
  intros id Hin. apply list_elem_of_lookup in Hin as [k Hk].
  assert (k < n)%nat as Hkn.
  { apply lookup_lt_Some in Hk. now rewrite nextIDs_length in Hk. }
  rewrite nextIDs_lookup in Hk by assumption. injection Hk as <-.
  pose proof (Z.mod_pos_bound (requestID conn + Z.of_nat k) MaxUint32 eq_refl).
  lia.
Qed.

Lemma nextID_distinct_from_any_state_witness :
  NoDup (nextIDs 3 wrappingConnection).1.
Proof.
  apply (nextID_distinct_from_any_state 3 wrappingConnection); [unfold wrappingConnection, MaxUint32; cbn; lia | lia].
Defined.

(** X2: the IDs run around the cycle 1, 2, ..., [MaxUint32], 1, ...: the
    call number [k] (from 0) returns [(counter + k) mod MaxUint32 + 1], so
    the ID after [MaxUint32] is 1 and the call [MaxUint32] places later
    returns the same ID again. *)
Theorem nextID_cycle (n : nat) (conn : Connection) (k k' : nat) :
  0 <= requestID conn <= MaxUint32 ->
  (k < n)%nat -> (k' < n)%nat ->
  (nextIDs n conn).1 !! k = Some ((requestID conn + Z.of_nat k) mod MaxUint32 + 1)
  /\ (Z.of_nat k' = Z.of_nat k + MaxUint32 ->
      (nextIDs n conn).1 !! k' = (nextIDs n conn).1 !! k).
Proof.
  intros Hr Hk Hk'. split; [now apply nextIDs_lookup|].
  intros Heq. rewrite !nextIDs_lookup by assumption.
  rewrite Heq. f_equal. f_equal.
  replace (requestID conn + (Z.of_nat k + MaxUint32))
    with (requestID conn + Z.of_nat k + 1 * MaxUint32) by lia.
  now rewrite Z_mod_plus_full.
Qed.

Lemma nextID_cycle_witness :
  (nextIDs 3 wrappingConnection).1 !! 1%nat = Some 1.
Proof.
  apply (proj1 (nextID_cycle 3 wrappingConnection 1 1
                  ltac:(unfold wrappingConnection, MaxUint32; cbn; lia)
                  ltac:(lia) ltac:(lia))).
Defined.

(** ** The worker's clean-up, as a whole *)

(** X3: when the requests in the registry and in the submission queue have
    pairwise distinct open reply channels, the worker's clean-up, visiting
    the registry in any order, completes: every one of these channels
    gets exactly one more value, the connection-closed response, and is
    closed; no other channel is touched; the registry and the submission
    queue are empty afterwards and [closed] has been closed. *)
Theorem worker_teardown_fails_all (entries : list (Z * request))
    (conn : Connection) (h : gmap nat chan) :
  entries ≡ₚ map_to_list (requests conn) ->
  NoDup (replyChan <$> (entries.*2 ++ requestChan conn)) ->
  (forall req, req ∈ entries.*2 ++ requestChan conn ->
     exists vs, chan_open h (replyChan req) vs) ->
  exists conn' h',
    worker_teardown entries conn h = Some (conn', h')
    /\ requests conn' = ∅ /\ requestChan conn' = []
    /\ closed conn' = S (closed conn)
    /\ (forall req vs, req ∈ entries.*2 ++ requestChan conn ->
          chan_open h (replyChan req) vs ->
          chan_done h' (replyChan req)
            (vs ++ [ResponseError ConnectionClosedError]))
    /\ (forall c, c ∉ (replyChan <$> (entries.*2 ++ requestChan conn)) ->
          h' !! c = h !! c).
Proof.
  intros Hperm Hnd Hopen.
  destruct (fetch_input_total _ h Hnd Hopen) as (h' & Hrun & Hdone & Hother).
  rewrite fetch_input_app in Hrun.
  destruct (fetch_input entries.*2 h) as [h1|] eqn:E1; cbn in Hrun; [|discriminate].
  assert (fail_pending entries conn h
          = Some (set_requests conn
                    (foldl (fun m k => delete k m) (requests conn) entries.*1), h1))
    as HF.
  { rewrite fail_pending_fetch, E1. reflexivity. }
  pose proof (fail_pending_empties _ _ _ _ _ Hperm HF) as Hempty.
  eexists _, h'. split.
  { unfold worker_teardown. rewrite HF. cbn. rewrite Hrun. reflexivity. }
  cbn. split; [exact Hempty|]. split; [reflexivity|]. split; [reflexivity|].
  split; [exact Hdone | exact Hother].
Qed.

Lemma worker_teardown_fails_all_witness :
  exists conn' h',
    worker_teardown [(1, staleRequest)] pendingConnection twoChans
      = Some (conn', h')
    /\ requests conn' = ∅
    /\ chan_done h' 0%nat [ResponseError ConnectionClosedError]
    /\ chan_done h' 1%nat [ResponseError ConnectionClosedError].
Proof.
  destruct (worker_teardown_fails_all [(1, staleRequest)] pendingConnection twoChans)
    as (conn' & h' & Hrun & Hreg & _ & _ & Hdone & _).
  - cbn. now rewrite map_to_list_singleton.
  - cbn. compute_done.
  - intros req Hin. exists []. cbn in Hin.
    apply elem_of_cons in Hin as [->|Hin]; [reflexivity|].
    apply list_elem_of_singleton in Hin as ->. reflexivity.
  - exists conn', h'. split; [exact Hrun|]. split; [exact Hreg|]. split.
    + apply (Hdone staleRequest []); [cbn; left|reflexivity].
    + apply (Hdone plainRequest []); [cbn; right; left|reflexivity].
Defined.

(** X4: the clean-up completes only if the pending requests have pairwise
    distinct reply channels, all open: when a request is pending twice
    (or its channel was closed before), the second send hits a closed
    channel, the worker panics and [closed] is never closed. *)
Theorem worker_teardown_needs_distinct_channels (entries : list (Z * request))
    (conn conn' : Connection) (h h' : gmap nat chan) :
  worker_teardown entries conn h = Some (conn', h') ->
  NoDup (replyChan <$> (entries.*2 ++ requestChan conn))
  /\ forall req, req ∈ entries.*2 ++ requestChan conn ->
       exists vs, chan_open h (replyChan req) vs.
Proof.
  intros H. apply worker_teardown_inv in H as (conn1 & h1 & HF & HI & _).
  rewrite fail_pending_fetch in HF.
  destruct (fetch_input entries.*2 h) as [h1'|] eqn:E1; cbn in HF; [|discriminate].
  injection HF as _ <-.
  apply (fetch_input_inv _ h h'). rewrite fetch_input_app, E1. exact HI.
Qed.

Lemma worker_teardown_needs_distinct_channels_witness :
  NoDup (replyChan <$> ([(1, staleRequest)].*2 ++ requestChan pendingConnection)).
Proof.
  apply (proj1 (worker_teardown_needs_distinct_channels
                  [(1, staleRequest)] pendingConnection
                  (default (pendingConnection, twoChans)
                     (worker_teardown [(1, staleRequest)] pendingConnection
                        twoChans)).1
                  twoChans
                  (default (pendingConnection, twoChans)
                     (worker_teardown [(1, staleRequest)] pendingConnection
                        twoChans)).2
                  ltac:(vm_compute; reflexivity))).
Defined.

(** A request that is pending twice makes the clean-up panic. *)
Lemma worker_teardown_resubmitted :
  worker_teardown [(1, staleRequest)] resubmittedConnection twoChans = None.
Proof. reflexivity. Qed.

(** ** Replies *)

(** X5: a reply whose ID is registered is sent on that request's channel,
    the channel is closed and the entry removed; no other channel, no
    other entry and no lifecycle field changes, and a second reply with
    the same ID is dropped without effect. *)
Theorem handleReply_delivers_once (res : Response) (conn : Connection)
    (h : gmap nat chan) (req : request) (vs : list Response) :
  requests conn !! resp_requestID res = Some req ->
  chan_open h (replyChan req) vs ->
  exists conn' h',
    handleReply res conn h = Some (conn', h')
    /\ chan_done h' (replyChan req) (vs ++ [res])
    /\ requests conn' = delete (resp_requestID res) (requests conn)
    /\ (forall c, c <> replyChan req -> h' !! c = h !! c)
    /\ lifecycle conn' = lifecycle conn
    /\ forall res2, resp_requestID res2 = resp_requestID res ->
         handleReply res2 conn' h' = Some (conn', h').
Proof.
  intros Hl Ho. eexists _, _.
  split; [now apply (handleReply_found res conn h req vs)|].
  split; [unfold chan_done; apply lookup_insert_eq|].
  split; [reflexivity|].
  split; [intros c Hc; now rewrite lookup_insert_ne|].
  split; [reflexivity|].
  intros res2 Hid. apply handleReply_missing. rewrite Hid. cbn.
  apply lookup_delete_eq.
Qed.

Lemma handleReply_delivers_once_witness :
  exists conn' h',
    handleReply replyOne staleConnection twoChans = Some (conn', h')
    /\ chan_done h' 0%nat [replyOne]
    /\ requests conn' = ∅.
Proof.
  destruct (handleReply_delivers_once replyOne staleConnection twoChans
              staleRequest [] eq_refl eq_refl)
    as (conn' & h' & Hrun & Hdone & Hreg & _).
  exists conn', h'. split; [exact Hrun|]. split; [exact Hdone|].
  rewrite Hreg. apply delete_singleton_eq.
Defined.

(** X6: a router iteration that takes a response whose ID is not
    registered (a late or duplicate frame) drops it: the response leaves
    the queue, and the connection, the reply channels and the writer's
    queue are as before. *)
Theorem router_drops_unknown_reply (p : pipeline) (w : write_case)
    (res : Response) (queue : list Response) :
  readChan p = res :: queue ->
  requests (p_conn p) !! resp_requestID res = None ->
  router_iter CaseResponse w p
  = Continue {| p_conn := p_conn p; p_chans := p_chans p;
                readChan := queue; writeChan := writeChan p |}.
Proof.
  intros Hq Hl. unfold router_iter. rewrite Hq.
  now rewrite handleReply_missing.
Qed.

Lemma router_drops_unknown_reply_witness :
  router_iter CaseResponse CaseWrite
    {| p_conn := emptyConnection "localhost:3301"; p_chans := twoChans;
       readChan := [replyOne]; writeChan := [] |}
  = Continue {| p_conn := emptyConnection "localhost:3301"; p_chans := twoChans;
                readChan := []; writeChan := [] |}.
Proof.
  apply (router_drops_unknown_reply
           {| p_conn := emptyConnection "localhost:3301"; p_chans := twoChans;
              readChan := [replyOne]; writeChan := [] |} CaseWrite replyOne []);
    reflexivity.
Defined.

(** ** Accepting a request *)

(** [newRequest] on a free ID with a payload that serializes. *)
Lemma newRequest_accepts (r : request) (conn : Connection) (h : gmap nat chan)
    (bytes : list byte) :
  Pack (query r) (nextID conn).1 (defaultSpace conn) = (bytes, None) ->
  requests conn !! (nextID conn).1 = None ->
  newRequest r conn h
  = Some (None, set_raw r bytes,
          set_requests (nextID conn).2
            (<[(nextID conn).1 := set_raw r bytes]> (requests conn)), h).
Proof.
  intros HP Hfree.
  pose proof (after_eviction_free (nextID conn).1 (nextID conn).2 h) as He.
  rewrite nextID_requests in He. specialize (He Hfree).
  rewrite (newRequest_pack_ok r conn _ _ _ bytes HP He).
  cbn. now rewrite nextID_requests.
Qed.

(** X7: registering a request and then handling the reply that carries
    its ID is a round trip on the registry: the request is registered
    under the allocated ID with its serialized bytes, the reply is the one
    value sent on its channel, which is then closed, and the registry is
    again what it was before the request. *)
Theorem request_reply_roundtrip (r : request) (conn : Connection)
    (h : gmap nat chan) (bytes : list byte) (vs : list Response)
    (res : Response) :
  Pack (query r) (nextID conn).1 (defaultSpace conn) = (bytes, None) ->
  requests conn !! (nextID conn).1 = None ->
  chan_open h (replyChan r) vs ->
  resp_requestID res = (nextID conn).1 ->
  exists conn1 conn2 h2,
    newRequest r conn h = Some (None, set_raw r bytes, conn1, h)
    /\ requests conn1 !! (nextID conn).1 = Some (set_raw r bytes)
    /\ handleReply res conn1 h = Some (conn2, h2)
    /\ chan_done h2 (replyChan r) (vs ++ [res])
    /\ requests conn2 = requests conn
    /\ requestID conn2 = (nextID conn).1.
Proof.
  intros HP Hfree Ho Hid.
  eexists _, _, _. split; [now apply newRequest_accepts|].
  split; [cbn; apply lookup_insert_eq|].
  split.
  { apply (handleReply_found res _ h (set_raw r bytes) vs); [|exact Ho].
    rewrite Hid. cbn. apply lookup_insert_eq. }
  split; [unfold chan_done; cbn; apply lookup_insert_eq|].
  split.
  - cbn. rewrite Hid, delete_insert_eq. now apply delete_id.
  - cbn. apply nextID_state.
Qed.

Lemma request_reply_roundtrip_witness :
  exists conn1 conn2 h2,
    newRequest plainRequest (emptyConnection "localhost:3301") twoChans
      = Some (None, set_raw plainRequest [x01; x02; x03], conn1, twoChans)
    /\ handleReply replyOne conn1 twoChans = Some (conn2, h2)
    /\ chan_done h2 1%nat [replyOne]
    /\ requests conn2 = ∅.
Proof.
  destruct (request_reply_roundtrip plainRequest
              (emptyConnection "localhost:3301") twoChans [x01; x02; x03] []
              replyOne eq_refl eq_refl eq_refl eq_refl)
    as (conn1 & conn2 & h2 & H1 & _ & H2 & H3 & H4 & _).
  exists conn1, conn2, h2. repeat split; assumption.
Defined.

(** X8: a router iteration that accepts a request (free ID, payload
    serializes) registers it under the allocated ID and appends it, with
    its serialized bytes, at the end of the writer's queue when that queue
    has room; the reply channels are untouched.  When the writer's queue is
    full and shutdown has not been signalled, neither case of the inner
    [select] is ready. *)
Theorem router_forwards_accepted_request (p : pipeline) (r : request)
    (queue : list request) (bytes : list byte) :
  let conn := set_requestChan (p_conn p) queue in
  router_requestChan p = Some (r :: queue) ->
  Pack (query r) (nextID conn).1 (defaultSpace conn) = (bytes, None) ->
  requests conn !! (nextID conn).1 = None ->
  (Z.of_nat (length (writeChan p)) < writeChanCap ->
   exists conn',
     router_iter CaseRequest CaseWrite p
     = Continue {| p_conn := conn'; p_chans := p_chans p;
                   readChan := readChan p;
                   writeChan := writeChan p ++ [set_raw r bytes] |}
     /\ requests conn'
        = <[(nextID conn).1 := set_raw r bytes]> (requests (p_conn p))
     /\ requestChan conn' = queue
     /\ requestID conn' = (nextID conn).1)
  /\ (writeChanCap <= Z.of_nat (length (writeChan p)) ->
      exit (p_conn p) = 0%nat ->
      forall w, router_iter CaseRequest w p = NotReady).
Proof.
  intros conn Hsel HP Hfree.
  pose proof (newRequest_accepts r conn (p_chans p) bytes HP Hfree) as HN.
  split.
  - intros Hroom. eexists. split.
    + unfold router_iter. rewrite Hsel. fold conn. rewrite HN.
      apply Z.ltb_lt in Hroom. rewrite Hroom. reflexivity.
    + cbn. split; [reflexivity|]. rewrite nextID_fields. cbn.
      split; reflexivity.
  - intros Hfull Hexit w. unfold router_iter. rewrite Hsel. fold conn.
    rewrite HN. destruct w.
    + destruct (Z.ltb_spec (Z.of_nat (length (writeChan p))) writeChanCap);
        [lia|reflexivity].
    + assert (exit (set_requests (nextID conn).2
                      (<[(nextID conn).1 := set_raw r bytes]> (requests conn)))
              = exit (p_conn p)) as -> by (rewrite nextID_fields; reflexivity).
      now rewrite Hexit.
Qed.

Lemma router_forwards_accepted_request_witness :
  exists conn',
    router_iter CaseRequest CaseWrite idlePipeline
    = Continue {| p_conn := conn'; p_chans := twoChans; readChan := [];
                  writeChan := [set_raw plainRequest [x01; x02; x03]] |}
    /\ requestID conn' = 1.
Proof.
  destruct (router_forwards_accepted_request idlePipeline plainRequest []
              [x01; x02; x03] eq_refl eq_refl eq_refl) as [Hroom _].
  destruct (Hroom ltac:(vm_compute; reflexivity)) as (conn' & Hit & _ & _ & Hid).
  exists conn'. split; [exact Hit | exact Hid].
Defined.

(** X9: when shutdown is signalled while the router waits to hand an
    accepted request to the writer, the router leaves its loop with the
    request registered and not forwarded; every clean-up that completes
    afterwards visits it, so its channel ends closed with the
    connection-closed response as its last value. *)
Theorem router_stop_leaves_request_registered (p : pipeline) (r : request)
    (queue : list request) (bytes : list byte) :
  let conn := set_requestChan (p_conn p) queue in
  router_requestChan p = Some (r :: queue) ->
  Pack (query r) (nextID conn).1 (defaultSpace conn) = (bytes, None) ->
  requests conn !! (nextID conn).1 = None ->
  (0 < exit (p_conn p))%nat ->
  exists conn',
    router_iter CaseRequest CaseWriteStop p
    = Break {| p_conn := conn'; p_chans := p_chans p;
               readChan := readChan p; writeChan := writeChan p |}
    /\ requests conn' !! (nextID conn).1 = Some (set_raw r bytes)
    /\ forall entries h conn'' h'',
         entries ≡ₚ map_to_list (requests conn') ->
         worker_teardown entries conn' h = Some (conn'', h'') ->
         exists vs, chan_done h'' (replyChan r)
                      (vs ++ [ResponseError ConnectionClosedError]).
Proof.
  intros conn Hsel HP Hfree Hexit.
  pose proof (newRequest_accepts r conn (p_chans p) bytes HP Hfree) as HN.
  eexists. split.
  { unfold router_iter. rewrite Hsel. fold conn. rewrite HN.
    assert (exit (set_requests (nextID conn).2
                    (<[(nextID conn).1 := set_raw r bytes]> (requests conn)))
            = exit (p_conn p)) as -> by (rewrite nextID_fields; reflexivity).
    apply Nat.ltb_lt in Hexit. rewrite Hexit. reflexivity. }
  split; [cbn; apply lookup_insert_eq|].
  intros entries h conn'' h'' Hperm HT.
  apply worker_teardown_inv in HT as (conn1 & h1 & HF & HI & _).
  assert (((nextID conn).1, set_raw r bytes) ∈ entries) as Hin.
  { rewrite Hperm. apply elem_of_map_to_list. cbn. apply lookup_insert_eq. }
  destruct (fail_pending_failed _ _ _ _ _ HF _ _ Hin) as [vs Hdone].
  exists vs. apply (fetch_input_done _ _ _ _ _ HI). exact Hdone.
Qed.

Lemma router_stop_leaves_request_registered_witness :
  exists conn',
    router_iter CaseRequest CaseWriteStop stoppingPipeline
    = Break {| p_conn := conn'; p_chans := twoChans; readChan := [];
               writeChan := [] |}
    /\ requests conn' !! 1 = Some (set_raw plainRequest [x01; x02; x03]).
Proof.
  destruct (router_stop_leaves_request_registered stoppingPipeline plainRequest
              [] [x01; x02; x03] eq_refl eq_refl eq_refl
              ltac:(vm_compute; lia))
    as (conn' & Hit & Hreg & _).
  exists conn'. split; [exact Hit | exact Hreg].
Defined.

(** ** More on framing *)

Lemma ReadAtLeast_no_panic (r : list byte) (n : nat) :
  ReadAtLeast r n <> Panic.
Proof.
  unfold ReadAtLeast.
  destruct (n =? 0)%nat; [discriminate|].
  destruct (length r =? 0)%nat; [discriminate|].
  destruct (length r <? n)%nat; discriminate.
Qed.

(** X10: [readMessage] never panics, whatever bytes arrive: the length it
    computes from the header is never negative (on 64-bit [int]), so the
    allocation of the body cannot fail. *)
Theorem readMessage_never_panics (r : list byte) :
  (readMessage r).1 <> Panic
  /\ forall m b1 b2 b3 b4 tl,
       0 <= headerBodyLength (m :: b1 :: b2 :: b3 :: b4 :: tl) < 2 ^ 32.
Proof.
  split.
  - destruct (Nat.lt_ge_cases (length r) 5) as [Hs|Hl].
    { destruct (readMessage_short r Hs) as [e ->]. discriminate. }
    destruct r as [|m [|b1 [|b2 [|b3 [|b4 tl]]]]]; cbn in Hl; try lia.
    unfold readMessage. rewrite ReadAtLeast_header.
    destruct (negb _); [discriminate|].
    pose proof (headerBodyLength_range m b1 b2 b3 b4) as Hr.
    destruct (headerBodyLength [m; b1; b2; b3; b4] =? 0); [discriminate|].
    destruct (Z.ltb_spec (headerBodyLength [m; b1; b2; b3; b4]) 0); [lia|].
    pose proof (ReadAtLeast_no_panic tl
                  (Z.to_nat (headerBodyLength [m; b1; b2; b3; b4]))) as Hn.
    destruct (ReadAtLeast tl _) as [[body r2]|e|]; [discriminate..|contradiction].
  - intros m b1 b2 b3 b4 tl. rewrite headerBodyLength_prefix.
    apply headerBodyLength_range.
Qed.

(** [readMessage] on a stream that starts with the marker and four
    length bytes. *)
Lemma readMessage_marked (b1 b2 b3 b4 : byte) (tl : list byte) :
  readMessage (xce :: b1 :: b2 :: b3 :: b4 :: tl)
  = if headerBodyLength [xce; b1; b2; b3; b4] =? 0 then
      (Err (ErrorsNew "Response should not be 0 length"), tl)
    else
      match ReadAtLeast tl (Z.to_nat (headerBodyLength [xce; b1; b2; b3; b4])) with
      | Ok (body, r2) => (Ok body, r2)
      | Err e => (Err e, tl)
      | Panic => (Panic, tl)
      end.
Proof.
  unfold readMessage. rewrite ReadAtLeast_header.
  change (Z_of_byte (byte_at [xce; b1; b2; b3; b4] 0) =? 206) with true.
  cbn [negb]. cbv zeta.
  pose proof (headerBodyLength_range xce b1 b2 b3 b4) as Hr.
  destruct (headerBodyLength [xce; b1; b2; b3; b4] =? 0); [reflexivity|].
  destruct (Z.ltb_spec (headerBodyLength [xce; b1; b2; b3; b4]) 0);
    [lia|reflexivity].
Qed.

(** What [ReadAtLeast] returns when it succeeds. *)
Lemma ReadAtLeast_Ok (r : list byte) (n : nat) (data rest : list byte) :
  (0 < n)%nat ->
  ReadAtLeast r n = Ok (data, rest) ->
  r = data ++ rest /\ length data = n.
Proof.
  intros Hn. unfold ReadAtLeast.
  destruct (Nat.eqb_spec n 0); [lia|].
  destruct (length r =? 0)%nat; [discriminate|].
  destruct (Nat.ltb_spec (length r) n); [discriminate|].
  intros [= <- <-]. split; [now rewrite take_drop|].
  rewrite length_take. lia.
Qed.

(** X11: [readMessage] succeeds exactly on streams that start with the
    marker, a big-endian length that is not zero, and at least that many
    further bytes: the body returned is those bytes and the stream is left
    right after them. *)
Theorem readMessage_succeeds_iff (r body rest : list byte) :
  readMessage r = (Ok body, rest)
  <-> exists b1 b2 b3 b4,
        r = xce :: b1 :: b2 :: b3 :: b4 :: body ++ rest
        /\ body <> []
        /\ headerBodyLength [xce; b1; b2; b3; b4] = Z.of_nat (length body).
Proof.
  split.
  - intros H.
    destruct (Nat.lt_ge_cases (length r) 5) as [Hs|Hl].
    { destruct (readMessage_short r Hs) as [e He]. rewrite He in H. discriminate. }
    destruct r as [|m [|b1 [|b2 [|b3 [|b4 tl]]]]]; cbn in Hl; try lia.
    destruct (Byte.byte_eq_dec m xce) as [->|Hm];
      [|rewrite readMessage_wrong_marker in H by assumption; discriminate].
    rewrite readMessage_marked in H.
    pose proof (headerBodyLength_range xce b1 b2 b3 b4) as Hr.
    remember (headerBodyLength [xce; b1; b2; b3; b4]) as L eqn:HL.
    exists b1, b2, b3, b4. rewrite <- HL.
    destruct (Z.eqb_spec L 0) as [|Hnz]; [discriminate|].
    destruct (ReadAtLeast tl (Z.to_nat L)) as [[body' r2]|e|] eqn:E;
      try discriminate.
    injection H as -> ->.
    apply ReadAtLeast_Ok in E as [-> Hlen]; [|lia].
    split; [reflexivity|]. split; [|lia].
    intros ->. cbn in Hlen. lia.
  - intros (b1 & b2 & b3 & b4 & -> & Hne & HL). now apply readMessage_frame.
Qed.

Lemma readMessage_succeeds_iff_witness :
  readMessage [xce; x00; x00; x00; x02; x82; x00; xff] = (Ok [x82; x00], [xff]).
Proof.
  apply (readMessage_succeeds_iff [xce; x00; x00; x00; x02; x82; x00; xff]
           [x82; x00] [xff]).
  exists x00, x00, x00, x02. split; [reflexivity|]. split; [discriminate|].
  reflexivity.
Defined.

(** X12: a frame whose header announces more body bytes than the stream
    holds is rejected with the end-of-stream error of [io.ReadAtLeast]:
    [io.EOF] when no body byte arrived, [io.ErrUnexpectedEOF] when some
    did. *)
Theorem readMessage_truncated_body (b1 b2 b3 b4 : byte) (tl : list byte) :
  Z.of_nat (length tl) < headerBodyLength [xce; b1; b2; b3; b4] ->
  (readMessage (xce :: b1 :: b2 :: b3 :: b4 :: tl)).1
  = Err (match tl with [] => IoEOF | _ => IoErrUnexpectedEOF end).
Proof.
  rewrite readMessage_marked.
  generalize (headerBodyLength [xce; b1; b2; b3; b4]) as L. intros L Hlen.
  destruct (Z.eqb_spec L 0); [lia|].
  unfold ReadAtLeast.
  destruct (Nat.eqb_spec (Z.to_nat L) 0); [lia|].
  destruct tl as [|b tl]; [reflexivity|].
  cbn [length Nat.eqb].
  destruct (Nat.ltb_spec (S (length tl)) (Z.to_nat L)); [reflexivity|].
  cbn [length] in Hlen. lia.
Qed.

Lemma readMessage_truncated_body_witness :
  (readMessage truncatedFrame).1 = Err IoErrUnexpectedEOF.
Proof.
  apply (readMessage_truncated_body x00 x00 x00 x04 [x82; x00]).
  vm_compute. reflexivity.
Defined.

(** Reading back a frame built by [packIproto] that is followed by
    more bytes. *)
Lemma readMessage_packIproto (KeyCode KeySync requestCode : byte)
    (requestID : Z) (body rest : list byte) :
  Z.of_nat (length body) + 9 < 2 ^ 32 ->
  readMessage (packIproto KeyCode KeySync requestCode requestID body ++ rest)
  = (Ok (frameContent KeyCode KeySync requestCode requestID body), rest).
Proof.
  intros Hlen. rewrite packIproto_shape. cbn [app].
  apply readMessage_frame.
  - rewrite headerBodyLength_frame, frameLength_value by lia.
    rewrite frameContent_length. apply Z.mod_small. lia.
  - unfold frameContent. discriminate.
Qed.

(** X13: frames written back to back are read back one by one:
    [readMessage] on two frames built by [packIproto] returns the content
    of the first and leaves the stream at the start of the second, and a
    second call returns the content of the second. *)
Theorem frames_read_in_sequence (KeyCode KeySync code1 code2 : byte)
    (id1 id2 : Z) (body1 body2 rest : list byte) :
  Z.of_nat (length body1) + 9 < 2 ^ 32 ->
  Z.of_nat (length body2) + 9 < 2 ^ 32 ->
  let frame1 := packIproto KeyCode KeySync code1 id1 body1 in
  let frame2 := packIproto KeyCode KeySync code2 id2 body2 in
  readMessage (frame1 ++ frame2 ++ rest)
  = (Ok (frameContent KeyCode KeySync code1 id1 body1), frame2 ++ rest)
  /\ readMessage (readMessage (frame1 ++ frame2 ++ rest)).2
     = (Ok (frameContent KeyCode KeySync code2 id2 body2), rest).
Proof.
  intros H1 H2 frame1 frame2. subst frame1 frame2.
  rewrite readMessage_packIproto by assumption.
  split; [reflexivity|]. cbn [snd]. now apply readMessage_packIproto.
Qed.

Lemma frames_read_in_sequence_witness :
  readMessage (packIproto x00 x01 x40 1 [x2a] ++ packIproto x00 x01 x41 2 [] ++ [])
  = (Ok (frameContent x00 x01 x40 1 [x2a]), packIproto x00 x01 x41 2 [] ++ []).
Proof.
  apply (frames_read_in_sequence x00 x01 x40 x41 1 2 [x2a] [] []); cbn; lia.
Defined.

(** X14: the layout of a frame built by [packIproto]: 14 header bytes and
    then the body unchanged; the marker first, the map marker, the two
    keys, the request code at offset 7 and the 0xCE tag at offset 9; the
    four bytes at offsets 10 to 13 hold the correlation ID, most
    significant byte first, so a 32-bit ID is recovered from them, and two
    frames are equal only if code, ID and body are. *)
Theorem packIproto_layout (KeyCode KeySync requestCode : byte) (requestID : Z)
    (body : list byte) :
  let frame := packIproto KeyCode KeySync requestCode requestID body in
  length frame = (14 + length body)%nat
  /\ drop 14 frame = body
  /\ byte_at frame 0 = xce /\ byte_at frame 5 = x82
  /\ byte_at frame 6 = KeyCode /\ byte_at frame 7 = requestCode
  /\ byte_at frame 8 = KeySync /\ byte_at frame 9 = xce
  /\ (0 <= requestID < 2 ^ 32 ->
      Z_of_byte (byte_at frame 10) * 2 ^ 24
      + Z_of_byte (byte_at frame 11) * 2 ^ 16
      + Z_of_byte (byte_at frame 12) * 2 ^ 8
      + Z_of_byte (byte_at frame 13) = requestID)
  /\ (forall code' id' body',
        0 <= requestID < 2 ^ 32 -> 0 <= id' < 2 ^ 32 ->
        frame = packIproto KeyCode KeySync code' id' body' ->
        code' = requestCode /\ id' = requestID /\ body' = body).
Proof.
  intros frame. subst frame. rewrite packIproto_shape. unfold frameContent.
  cbn [length app drop byte_at nth].
  split; [cbn; lia|].
  do 7 (split; [reflexivity|]).
  split; [apply big_endian_32|].
  intros code' id' body' Hid Hid' Heq.
  rewrite packIproto_shape in Heq. unfold frameContent in Heq.
  cbn [app] in Heq.
  injection Heq as _ _ _ _ Hc H24 H16 H8 H0 Hb.
  split; [now symmetry|]. split; [|now symmetry].
  rewrite <- (big_endian_32 requestID Hid), <- (big_endian_32 id' Hid').
  now rewrite H24, H16, H8, H0.
Qed.

Lemma packIproto_layout_witness :
  Z_of_byte (byte_at (packIproto x00 x01 x40 305419896 [x2a]) 10) * 2 ^ 24
  + Z_of_byte (byte_at (packIproto x00 x01 x40 305419896 [x2a]) 11) * 2 ^ 16
  + Z_of_byte (byte_at (packIproto x00 x01 x40 305419896 [x2a]) 12) * 2 ^ 8
  + Z_of_byte (byte_at (packIproto x00 x01 x40 305419896 [x2a]) 13)
  = 305419896.
Proof.
  apply (packIproto_layout x00 x01 x40 305419896 [x2a]). lia.
Defined.

(** ** More on [Connect] *)

Section ConnectOutcomes.

Variable AuthPack :
  string -> string -> list byte -> Z -> string -> list byte * option error.
Variable decodeResponse : list byte -> result Response.

(** The authentication exchange allocates one ID and writes the packed
    bytes once, whatever its outcome. *)
Lemma authenticate_inv (conn conn' : Connection) (options : Options)
    (net : Net) (salt tcp : list byte) (written : list (list byte))
    (err : option error) :
  authenticate AuthPack decodeResponse conn options net salt tcp
    = Some (conn', written, err) ->
  conn' = (nextID conn).2
  /\ written = [(AuthPack (User options) (Password options) salt
                   (nextID conn).1 "").1].
Proof.
  unfold authenticate. rewrite (surjective_pairing (nextID conn)).
  destruct (AuthPack _ _ _ _ _) as [authRaw perr]. cbn [fst].
  intros H.
  destruct (write net authRaw); [now injection H as <- <- _|].
  destruct (readMessage tcp) as [[body|e|] rest]; try discriminate;
    [|now injection H as <- <- _].
  destruct (decodeResponse body) as [resp|e|]; try discriminate;
    [|now injection H as <- <- _].
  destruct (negb _); now injection H as <- <- _.
Qed.

(** The outcomes of [Connect]. *)
Lemma Connect_inv (addr : string) (options : option Options) (net : Net)
    (res : Connected) :
  Connect AuthPack decodeResponse addr options net = Some res ->
  let o := match options with Some o => o | None => zeroOptions end in
  (c_conn res = None /\ c_worker_started res = false
   /\ (exists e, c_err res = Some e)
   /\ (c_socket_closed res = false ->
       c_written res = []
       /\ (c_err res = Some (FmtErrorf "Wrong space: ")
           \/ exists a t, dial net a t = c_err res)))
  \/ (exists conn,
        c_conn res = Some conn /\ c_err res = None
        /\ c_worker_started res = true /\ c_socket_closed res = false
        /\ open_connection conn /\ requests conn = ∅
        /\ requestChan conn = []
        /\ if String.eqb (User o) "" then
             c_written res = [] /\ requestID conn = 0
           else
             requestID conn = 1
             /\ c_written res
                = [(AuthPack (User o) (Password o)
                      (drop 64 (take 108 (take 128 (inbound net)))) 1 "").1]).
Proof.
  intros H. cbv zeta. unfold Connect in H.
  set (o := match options with Some o => o | None => zeroOptions end) in *.
  set (opts := if QueryTimeout _ =? 0 then _ else _) in H.
  destruct (if String.eqb (DefaultSpace opts) "" then _ else _) as [e|o'] eqn:Hsp.
  { injection H as <-. left. cbn. repeat split; eauto.
    left. f_equal.
    destruct (String.eqb (DefaultSpace opts) ""); [|discriminate].
    destruct (1 <? _)%nat; [|discriminate].
    destruct (String.eqb _ ""); [now injection Hsp as <-|discriminate]. }
  assert (User o' = User o /\ Password o' = Password o) as [HU HPw].
  { destruct (String.eqb (DefaultSpace opts) "");
      [destruct (1 <? _)%nat; [destruct (String.eqb _ "")|]|];
      try discriminate; injection Hsp as <-; split; reflexivity. }
  destruct (dial net _ _) as [e|] eqn:Hdial.
  { injection H as <-. left. cbn. repeat split; eauto. }
  destruct (ReadAtLeast (inbound net) 128) as [[greeting tcp]|e|] eqn:Hg;
    [|injection H as <-; left; cbn; repeat split; eauto; discriminate
     |discriminate].
  apply ReadAtLeast_Ok in Hg as [Hin Hlen]; [|lia].
  assert (greeting = take 128 (inbound net)) as Hgreet.
  { rewrite Hin. symmetry. apply take_app_length'. now symmetry. }
  rewrite HU in H.
  destruct (String.eqb (User o) "") eqn:Huser; cbn [negb] in H.
  - cbn in H. injection H as <-. right. eexists. cbn.
    repeat split; reflexivity.
  - destruct (authenticate _ _ _ _ _ _ _) as [[[conn1 written] err]|] eqn:HA;
      cbn in H; [|discriminate].
    apply authenticate_inv in HA as [-> ->].
    destruct err as [e|]; injection H as <-.
    + left. cbn. repeat split; eauto; discriminate.
    + right. eexists. cbn. rewrite HU, HPw, Hgreet.
      repeat split; reflexivity.
Qed.

End ConnectOutcomes.

(** X15: [Connect] returns either a connection and no error, or an error
    and no connection, never both and never neither.  The worker is
    started exactly when a connection is returned; the connection handed
    to it has nothing closed, an empty registry and an empty submission
    queue. *)
Theorem Connect_connection_or_error
    (AuthPack : string -> string -> list byte -> Z -> string
                -> list byte * option error)
    (decodeResponse : list byte -> result Response)
    (addr : string) (options : option Options) (net : Net) (res : Connected) :
  Connect AuthPack decodeResponse addr options net = Some res ->
  (exists conn,
     c_conn res = Some conn /\ c_err res = None
     /\ c_worker_started res = true /\ c_socket_closed res = false
     /\ open_connection conn /\ requests conn = ∅ /\ requestChan conn = [])
  \/ (c_conn res = None /\ (exists e, c_err res = Some e)
      /\ c_worker_started res = false).
Proof.
  intros H.
  destruct (Connect_inv AuthPack decodeResponse addr options net res H)
    as [(Hc & Hw & He & _)|(conn & Hc & He & Hw & Hs & Ho & Hr & Hq & _)].
  - right. auto.
  - left. exists conn. auto 10.
Qed.

Lemma Connect_connection_or_error_witness :
  exists res conn,
    Connect failingAuthPack noDecode "localhost:3301" None greetingNet = Some res
    /\ c_conn res = Some conn /\ c_err res = None
    /\ c_worker_started res = true.
Proof.
  eexists _. 
  destruct (Connect_connection_or_error failingAuthPack noDecode
              "localhost:3301" None greetingNet _ eq_refl)
    as [(conn & Hc & He & Hw & _)|(Hc & _)].
  - exists conn. split; [reflexivity|]. split; [exact Hc|].
    split; [exact He | exact Hw].
  - discriminate Hc.
Defined.

(** X16: a connection returned without credentials has written nothing to
    the socket and its counter is still 0, so the first request gets ID 1;
    a connection returned with credentials has written exactly the bytes
    of the authentication packer, once, built with ID 1 and the salt taken
    from bytes 64 to 108 of the greeting, and its counter is 1, so the
    first request gets ID 2. *)
Theorem Connect_auth_exchange
    (AuthPack : string -> string -> list byte -> Z -> string
                -> list byte * option error)
    (decodeResponse : list byte -> result Response)
    (addr : string) (options : option Options) (net : Net) (res : Connected)
    (conn : Connection) :
  Connect AuthPack decodeResponse addr options net = Some res ->
  c_conn res = Some conn ->
  let o := match options with Some o => o | None => zeroOptions end in
  if String.eqb (User o) "" then
    c_written res = [] /\ requestID conn = 0 /\ (nextID conn).1 = 1
  else
    c_written res
    = [(AuthPack (User o) (Password o)
          (drop 64 (take 108 (take 128 (inbound net)))) 1 "").1]
    /\ requestID conn = 1 /\ (nextID conn).1 = 2.
Proof.
  intros H Hconn.
  destruct (Connect_inv AuthPack decodeResponse addr options net res H)
    as [(Hc & _)|(conn' & Hc & _ & _ & _ & _ & _ & _ & Hw)]; [congruence|].
  rewrite Hconn in Hc. injection Hc as <-. cbv zeta in *.
  destruct (String.eqb (User _) "").
  - destruct Hw as [Hw Hid]. split; [exact Hw|]. split; [exact Hid|].
    rewrite nextID_value by (rewrite Hid; done). now rewrite Hid.
  - destruct Hw as [Hid Hw]. split; [exact Hw|]. split; [exact Hid|].
    rewrite nextID_value by (rewrite Hid; done). now rewrite Hid.
Qed.

Lemma Connect_auth_exchange_witness :
  exists res conn,
    Connect failingAuthPack acceptDecode "localhost:3301" (Some adminOptions)
      authNet = Some res
    /\ c_conn res = Some conn
    /\ c_written res = [[]] /\ requestID conn = 1.
Proof.
  eexists _, _. split; [vm_compute; reflexivity|]. split; [reflexivity|].
  pose proof (Connect_auth_exchange failingAuthPack acceptDecode
                "localhost:3301" (Some adminOptions) authNet _ _
                ltac:(vm_compute; reflexivity) eq_refl) as (Hw & Hid & _).
  split; [exact Hw | exact Hid].
Defined.

(** X17: when [Connect] fails the socket is closed, unless it was never
    opened: the only failures that leave no closed socket behind are the
    refused address (empty space suffix) and a failed dial, and then
    nothing was written. *)
Theorem Connect_failure_closes_socket
    (AuthPack : string -> string -> list byte -> Z -> string
                -> list byte * option error)
    (decodeResponse : list byte -> result Response)
    (addr : string) (options : option Options) (net : Net) (res : Connected) :
  Connect AuthPack decodeResponse addr options net = Some res ->
  c_conn res = None ->
  c_socket_closed res = true
  \/ (c_written res = []
      /\ (c_err res = Some (FmtErrorf "Wrong space: ")
          \/ exists a t, dial net a t = c_err res)).
Proof.
  intros H Hnone.
  destruct (Connect_inv AuthPack decodeResponse addr options net res H)
    as [(_ & _ & _ & Hs)|(conn & Hc & _)]; [|congruence].
  destruct (c_socket_closed res); [now left|right]. now apply Hs.
Qed.

Lemma Connect_failure_closes_socket_witness :
  exists res,
    Connect failingAuthPack noDecode "localhost:3301" None silentNet = Some res
    /\ c_err res = Some IoEOF /\ c_socket_closed res = true.
Proof.
  eexists. split; [reflexivity|]. split; [reflexivity|].
  destruct (Connect_failure_closes_socket failingAuthPack noDecode
              "localhost:3301" None silentNet _ eq_refl eq_refl)
    as [Hs|(_ & [He|(a & t & He)])]; [exact Hs|discriminate He..].
Defined.

(** X18: a connection returned by [Connect] keeps the address it was given,
    has the query timeout of the options, or one second when that is
    zero, and holds the greeting split as the first 64 bytes (version) and
    the 44 bytes from offset 64 to 108 (salt) of the 128 bytes read. *)
Theorem Connect_fills_connection
    (AuthPack : string -> string -> list byte -> Z -> string
                -> list byte * option error)
    (decodeResponse : list byte -> result Response)
    (address : string) (options : option Options) (net : Net) (res : Connected)
    (conn : Connection) :
  Connect AuthPack decodeResponse address options net = Some res ->
  c_conn res = Some conn ->
  let o := match options with Some o => o | None => zeroOptions end in
  addr conn = address
  /\ queryTimeout conn = (if QueryTimeout o =? 0 then Second else QueryTimeout o)
  /\ (128 <= length (inbound net))%nat
  /\ exists g,
       connGreeting conn = Some g
       /\ Version g = take 64 (inbound net)
       /\ Auth g = drop 64 (take 108 (inbound net))
       /\ length (Version g) = 64%nat /\ length (Auth g) = 44%nat.
Proof.
  intros H Hconn. cbv zeta. unfold Connect in H.
  set (o := match options with Some o => o | None => zeroOptions end) in *.
  set (opts := if QueryTimeout _ =? 0 then _ else _) in H.
  assert (QueryTimeout opts
          = if QueryTimeout o =? 0 then Second else QueryTimeout o) as Hqt.
  { subst opts. destruct (ConnectTimeout o =? 0); cbn;
      destruct (QueryTimeout o =? 0); reflexivity. }
  destruct (if String.eqb (DefaultSpace opts) "" then _ else _) as [e|o'];
    [injection H as <-; discriminate|].
  destruct (dial net _ _); [injection H as <-; discriminate|].
  destruct (ReadAtLeast (inbound net) 128) as [[greeting tcp]|e|] eqn:Hg;
    [|injection H as <-; discriminate|discriminate].
  apply ReadAtLeast_Ok in Hg as [Hin Hlen]; [|lia].
  assert (128 <= length (inbound net))%nat as Hlong.
  { rewrite Hin, length_app. lia. }
  assert (take 64 greeting = take 64 (inbound net)
          /\ take 108 greeting = take 108 (inbound net)) as [H64 H108].
  { rewrite Hin. split; rewrite take_app_le by lia; reflexivity. }
  assert (exists conn0,
            Some conn = Some conn0
            /\ addr conn0 = address /\ queryTimeout conn0 = QueryTimeout opts
            /\ connGreeting conn0
               = Some {| Version := take 64 greeting;
                         Auth := drop 64 (take 108 greeting) |}) as Hc.
  { destruct (negb (String.eqb (User o') "")).
    - destruct (authenticate _ _ _ _ _ _ _) as [[[conn1 written] err]|] eqn:HA;
        cbn in H; [|discriminate].
      apply authenticate_inv in HA as [-> _].
      destruct err; injection H as <-; [discriminate|].
      cbn in Hconn. eexists. split; [symmetry; exact Hconn|].
      cbn. repeat split.
    - cbn in H. injection H as <-. cbn in Hconn.
      eexists. split; [symmetry; exact Hconn|]. cbn. repeat split. }
  destruct Hc as (conn0 & [= <-] & Ha & Hq & Hgr).
  split; [exact Ha|]. split; [now rewrite Hq|]. split; [exact Hlong|].
  eexists. split; [exact Hgr|]. cbn. rewrite H64, H108.
  split; [reflexivity|]. split; [reflexivity|].
  split; [rewrite length_take; lia|].
  rewrite length_drop, length_take. lia.
Qed.

Lemma Connect_fills_connection_witness :
  exists res conn,
    Connect failingAuthPack noDecode "localhost:3301" None greetingNet = Some res
    /\ c_conn res = Some conn
    /\ queryTimeout conn = 1000000000.
Proof.
  eexists _, _. split; [reflexivity|]. split; [reflexivity|].
  apply (Connect_fills_connection failingAuthPack noDecode "localhost:3301"
           None greetingNet _ _ eq_refl eq_refl).
Defined.

(** ** More on the stages *)

(** X19: whatever the socket holds, the reader sends nothing on
    [readChan]: on a stream that ends before twelve bytes it leaves its
    loop, on any longer stream it panics, and in both cases the queue is
    as it was. *)
Theorem reader_never_sends (fuel : nat) (tcp : list byte)
    (readChan : list Response) :
  ((length tcp < 12)%nat -> reader (S fuel) tcp readChan = ReaderStopped readChan)
  /\ ((12 <= length tcp)%nat ->
      reader (S fuel) tcp readChan = ReaderPanicked readChan)
  /\ (reader (S fuel) tcp readChan = ReaderPanicked readChan
      \/ reader (S fuel) tcp readChan = ReaderStopped readChan).
Proof.
  split; [|split].
  - intros Hs. unfold reader. cbn [reader_loop].
    destruct (ReadAtLeast_short tcp 12 Hs) as [e ->]. reflexivity.
  - intros Hl. unfold reader. cbn [reader_loop].
    rewrite ReadAtLeast_enough by lia. reflexivity.
  - apply reader_delivers_nothing.
Qed.

Lemma reader_never_sends_witness :
  reader 1 truncatedFrame [replyOne] = ReaderStopped [replyOne].
Proof.
  apply (reader_never_sends 0 truncatedFrame [replyOne]). cbn. lia.
Defined.

(** X20: the router closes nothing itself, and it leaves its loop in two
    ways only: on the stop signal, which it can receive only when [exit]
    has been closed, or on a receive that reports a closed and drained
    [requestChan] or [readChan], which leaves the whole state as it was;
    no iteration changes the lifecycle fields of the connection. *)
Theorem router_exits (c : select_case) (w : write_case) (p p' : pipeline) :
  (router_iter c w p = Break p' ->
     lifecycle (p_conn p') = lifecycle (p_conn p)
     /\ ((0 < exit (p_conn p))%nat
         \/ (p' = p
             /\ (c = CaseRequestClosed /\ router_requestChan p = Some []
                 \/ c = CaseResponseClosed /\ readChan p = []))))
  /\ (router_iter c w p = Continue p' ->
      lifecycle (p_conn p') = lifecycle (p_conn p)).
Proof.
  split.
  - intros H.
    pose proof (router_iter_lifecycle c w p p' (or_intror H)) as HL.
    split; [exact HL|].
    assert (exit (p_conn p') = exit (p_conn p)) as Hexit.
    { unfold lifecycle in HL. now injection HL. }
    unfold router_iter in H. destruct c.
    + left. rewrite <- Hexit.
      destruct (router_requestChan p) as [[|r queue]|]; try discriminate.
      destruct (newRequest r _ (p_chans p)) as [[[[[e|] r'] conn'] h']|];
        try discriminate.
      destruct w.
      * destruct (Z.of_nat (length (writeChan p)) <? writeChanCap); discriminate.
      * destruct (Nat.ltb_spec 0 (exit conn')); [|discriminate].
        now injection H as <-.
    + left. destruct (Nat.ltb_spec 0 (exit (p_conn p))); [assumption|discriminate].
    + destruct (readChan p) as [|res queue]; [discriminate|].
      destruct (handleReply res (p_conn p) (p_chans p)) as [[conn' h']|];
        discriminate.
    + right. destruct (router_requestChan p) as [[|r queue]|]; try discriminate.
      injection H as <-. split; [reflexivity|]. left. now split.
    + right. destruct (readChan p) as [|res queue]; [|discriminate].
      injection H as <-. split; [reflexivity|]. right. now split.
  - intros H. apply (router_iter_lifecycle c w). now left.
Qed.

Lemma router_exits_witness :
  lifecycle (p_conn stoppingPipeline) = (true, 1%nat, 0%nat, 1%nat).
Proof.
  apply (proj1 (proj1 (router_exits CaseStop CaseWrite stoppingPipeline
                         stoppingPipeline) eq_refl)).
Defined.
